(** * Scenario manager and scene-graph extractor

    A shallow embedding of [srunner/scenariomanager/scenario_manager.py]:
    the [Scenario] tree wrapper, the [ScenarioManager] tick loop and result
    analysis, and the [SceneGraphExtractor] with its windowed writer.

    Python floats are IEEE-754 binary64 numbers and are modelled by Rocq's
    primitive floats; the C library's [pow], which [**] calls and whose
    rounding the C standard does not fix, is a parameter; Python [int]s are [Z];
    Python strings are [string]s;
    the insertion-ordered [framedict] is an association list; dictionaries
    keyed by actor ids are [gmap]s; node statuses, which the code mutates in
    place, live in a store keyed by node identity. *)

From Stdlib Require Import ZArith Floats Strings.String Strings.Ascii.
From stdpp Require Import gmap list strings pretty.

Set Warnings "-inexact-float,-register-all".

(** ** Outcomes of a Python call *)

Inductive PyExc := AttributeError | TypeError | ValueError | OverflowError | IndexError.

(** A call returns a value, raises, or (for the model's bounded loops) runs
    out of fuel. *)
Inductive Outcome (A : Type) :=
| Return (a : A)
| Raise (e : PyExc)
| OutOfFuel.
Arguments Return {A} a.
Arguments Raise {A} e.
Arguments OutOfFuel {A}.

Definition obind {A B} (m : Outcome A) (k : A → Outcome B) : Outcome B :=
  match m with
  | Return a => k a
  | Raise e => Raise e
  | OutOfFuel => OutOfFuel
  end.

Notation "x ←! m ; k" := (obind m (λ x, k))
  (at level 20, m at level 100, k at level 200, right associativity,
   format "x  ←!  m ;  '/' k").
Notation "' p ←! m ; k" := (obind m (λ x, match x with p => k end))
  (at level 20, p pattern, m at level 100, k at level 200, right associativity,
   format "' p  ←!  m ;  '/' k").

(** ** The behaviour tree (py_trees) as the scenario code sees it *)

Inductive Status := INVALID | RUNNING | SUCCESS | FAILURE.

#[global] Instance Status_eq_dec : EqDecision Status.
Proof. solve_decision. Defined.

Inductive CompositeKind := Parallel | Sequence | Selector.

(** The attributes [analyze_scenario] and [Scenario.__init__] touch. *)
Record Criterion := mkCriterion {
  optional : bool;
  test_status : string;
  terminate_on_failure : bool
}.

(** Leaf behaviours: user behaviours, the [TimeOut] node with its
    [timeout] flag, and test criteria. *)
Inductive Behaviour :=
| Atomic
| TimeOut (duration : Z) (timeout : bool)
| Crit (c : Criterion).

(** A node carries its object identity [id].  A leaf behaviour has no
    children ([Behaviour.children] is the empty list); a composite owns an
    ordered list of children, possibly empty. *)
Inductive Node :=
| Leaf (id : nat) (b : Behaviour)
| Comp (id : nat) (k : CompositeKind) (ch : list Node).

Definition node_id (n : Node) : nat :=
  match n with Leaf i _ => i | Comp i _ _ => i end.

Definition children (n : Node) : list Node :=
  match n with Leaf _ _ => [] | Comp _ _ ch => ch end.

(** [isinstance(node, py_trees.composites.Parallel)] *)
Definition is_Parallel (n : Node) : bool :=
  match n with Comp _ Parallel _ => true | _ => false end.

(** Python truthiness of [node.children]. *)
Definition has_children (n : Node) : bool :=
  match children n with [] => false | _ :: _ => true end.

(** [node_list.remove(node)]: nodes define no [__eq__], so equality is
    object identity; the first element with that identity is dropped. *)
Fixpoint list_remove (n : Node) (l : list Node) : list Node :=
  match l with
  | [] => []
  | m :: l' => if Nat.eqb (node_id m) (node_id n) then l' else m :: list_remove n l'
  end.

(** One run of [for node in node_list] (lines 82-87).  Python's list
    iterator keeps an index [i] into the list, which the body mutates: a
    node with children is removed and its children are appended, and the
    index still advances, so the element that slides into position [i] is
    not examined in this run. *)
Fixpoint for_node_in (fuel i : nat) (node_list : list Node) (more_nodes_exist : bool)
  : option (list Node * bool) :=
  match fuel with
  | O => None
  | S fuel' =>
      match node_list !! i with
      | None => Some (node_list, more_nodes_exist)
      | Some node =>
          if has_children node
          then for_node_in fuel' (S i) (list_remove node node_list ++ children node) true
          else for_node_in fuel' (S i) node_list more_nodes_exist
      end
  end.

(** [while more_nodes_exist] (lines 80-87). *)
Fixpoint while_more_nodes_exist (fuel inner : nat) (node_list : list Node)
  : option (list Node) :=
  match fuel with
  | O => None
  | S fuel' =>
      match for_node_in inner 0 node_list false with
      | None => None
      | Some (node_list', true) => while_more_nodes_exist fuel' inner node_list'
      | Some (node_list', false) => Some node_list'
      end
  end.

(** All nodes of a tree in preorder, and the nodes without children (the
    tree's frontier). *)
Fixpoint nodes (n : Node) : list Node :=
  n :: match n with
       | Leaf _ _ => []
       | Comp _ _ ch => ch ≫= nodes
       end.

Fixpoint leaves (n : Node) : list Node :=
  match n with
  | Leaf _ _ => [n]
  | Comp _ _ ch => match ch with [] => [n] | _ :: _ => ch ≫= leaves end
  end.

(** Number of nodes of a tree; it bounds both loops. *)
Definition tree_size (n : Node) : nat := length (nodes n).

Definition forest_size (l : list Node) : nat := length (l ≫= nodes).

(** [Scenario._extract_nodes_from_tree]; [tree] is [None] when the Python
    argument is [None], on which [node.children] raises. *)
Definition _extract_nodes_from_tree (tree : option Node) : Outcome (list Node) :=
  match tree with
  | None => Raise AttributeError
  | Some root =>
      match while_more_nodes_exist (S (tree_size root)) (S (tree_size root)) [root] with
      | None => OutOfFuel
      | Some node_list =>
          match node_list with
          | [n] => if is_Parallel n then Return [] else Return node_list
          | _ => Return node_list
          end
      end
  end.

(** ** [class Scenario] *)

(** The [criteria] argument of the constructor when it is not [None]: a
    list of criterion nodes, or a tree built by the caller. *)
Inductive Criteria :=
| CriteriaList (l : list Node)
| CriteriaTree (t : Node).

Record Scenario := mkScenario {
  behavior : option Node;
  test_criteria : option Criteria;
  timeout : Z;
  name : string;
  criteria_tree : option Node;
  timeout_node : Node;
  scenario_tree : Node
}.

(** [criterion.terminate_on_failure = terminate_on_failure] (line 53). *)
Definition set_terminate_on_failure (b : bool) (n : Node) : Node :=
  match n with
  | Leaf i (Crit c) => Leaf i (Crit (mkCriterion (optional c) (test_status c) b))
  | _ => n
  end.

(** [Scenario.__init__].  The three objects the constructor creates (the
    "Test Criteria" group, the [TimeOut] node and the root) get the
    identities [alloc], [alloc + 1] and [alloc + 2].  Iterating a tree that
    is not a [Parallel] (line 52) raises [TypeError]. *)
Definition Scenario_init (behavior : option Node) (criteria : option Criteria)
    (name : string) (timeout : Z) (terminate_on_failure : bool) (alloc : nat)
  : Outcome Scenario :=
  criteria_tree ←!
    match criteria with
    | None => Return None
    | Some (CriteriaTree t) =>
        if is_Parallel t then Return (Some t) else Raise TypeError
    | Some (CriteriaList l) =>
        Return (Some (Comp alloc Parallel (set_terminate_on_failure terminate_on_failure <$> l)))
    end;
  let timeout_node := Leaf (alloc + 1) (TimeOut timeout false) in
  let scenario_tree :=
    Comp (alloc + 2) Parallel
      (match behavior with Some b => [b] | None => [] end
       ++ [timeout_node]
       ++ match criteria_tree with Some c => [c] | None => [] end) in
  Return (mkScenario behavior criteria timeout name criteria_tree timeout_node scenario_tree).

(** [Scenario.get_criteria] *)
Definition get_criteria (sc : Scenario) : Outcome (list Node) :=
  _extract_nodes_from_tree (criteria_tree sc).

(** Modelled from the spec: [node.terminate(status)] belongs to the
    behaviour-tree engine, which is not part of the source; following the
    docstring of [Scenario.terminate] it sets the status of that node. *)
Definition node_terminate (n : Node) (new_status : Status) (σ : gmap nat Status)
  : gmap nat Status :=
  <[node_id n := new_status]> σ.

(** [Scenario.terminate]; [σ] holds the status of every node object. *)
Definition terminate (sc : Scenario) (σ : gmap nat Status) : Outcome (gmap nat Status) :=
  node_list ←! _extract_nodes_from_tree (Some (scenario_tree sc));
  Return (foldl (λ σ node, node_terminate node INVALID σ) σ node_list).

(** ** [ScenarioManager.analyze_scenario] *)

(** Reading [criterion.optional] / [criterion.test_status] off a node of the
    list; a node that is no criterion has no such attribute. *)
Definition as_criterion (n : Node) : Outcome Criterion :=
  match n with
  | Leaf _ (Crit c) => Return c
  | _ => Raise AttributeError
  end.

(** [self.scenario.timeout_node.timeout] *)
Definition node_timeout (n : Node) : Outcome bool :=
  match n with
  | Leaf _ (TimeOut _ t) => Return t
  | _ => Raise AttributeError
  end.

(** The body of the loop of lines 306-313, on the pair
    [(failure, result)]. *)
Definition scan_criterion (st : bool * string) (criterion : Criterion) : bool * string :=
  let '(failure, result) := st in
  if negb (optional criterion)
     && negb (String.eqb (test_status criterion) "SUCCESS")
     && negb (String.eqb (test_status criterion) "ACCEPTABLE")
  then (true, "FAILURE")
  else if String.eqb (test_status criterion) "ACCEPTABLE"
       then (failure, "ACCEPTABLE")
       else (failure, result).

Fixpoint for_criterion_in (l : list Node) (st : bool * string) : Outcome (bool * string) :=
  match l with
  | [] => Return st
  | n :: l' =>
      criterion ←! as_criterion n;
      for_criterion_in l' (scan_criterion st criterion)
  end.

(** What a call of [analyze_scenario] does: the verdict it hands to
    [ResultOutputProvider] ([None] when no report is written) and the
    boolean it returns. *)
Record Analysis := mkAnalysis {
  reported : option string;
  returned : bool
}.

Definition analyze_scenario (sc : Scenario) : Outcome Analysis :=
  let failure := false in
  let timeout := false in
  let result := "SUCCESS" in
  match test_criteria sc with
  | None => Return (mkAnalysis None true)
  | Some _ =>
      criteria ←! get_criteria sc;
      '(failure, result) ←! for_criterion_in criteria (failure, result);
      fired ←! node_timeout (timeout_node sc);
      let '(timeout, result) :=
        if fired && negb failure then (true, "TIMEOUT") else (timeout, result) in
      Return (mkAnalysis (Some result) (failure || timeout))
  end.

(** ** The simulator interface (carla) *)

Module carla.

(** [carla.Vector3D] and [carla.Location] *)
Record Vector3D := mkVector3D { x : float; y : float; z : float }.

Record Rotation := mkRotation { pitch : float; yaw : float; roll : float }.

Record Transform := mkTransform { location : Vector3D; rotation : Rotation }.

(** What the getters of an actor handle answer at one moment. *)
Record ActorState := mkActorState {
  get_velocity : Vector3D;
  get_transform : Transform;
  get_angular_velocity : Vector3D
}.

Definition get_location (a : ActorState) : Vector3D := location (get_transform a).

(** A candidate actor of [world.get_actors()], at its state during the
    call. *)
Record Actor := mkActor { id : Z; type_id : string; state : ActorState }.

(** The fields of a [carla.Waypoint] the extractor reads; lane and marking
    types are integer-valued enumerations. *)
Record Waypoint := mkWaypoint {
  lane_type : Z;
  lane_width : float;
  right_lane_marking_type : Z;
  left_lane_marking_type : Z
}.

Record Timestamp := mkTimestamp { elapsed_seconds : float; frame : Z }.

(** The constant part of an actor handle. *)
Record Handle := mkHandle { handle_id : Z; handle_type_id : string }.

(** The world as one call of [extract_frame] meets it: the actor lists the
    four filters select, the waypoint query (with [project_to_road] and
    the lane-type mask fixed), and the monitored handle [self.ego], whose
    getters are answered by the running simulation: [ego_poll k] is the
    state it shows to the [k]-th position query of the call. *)
Record World := mkWorld {
  get_actors_filter : string → list Actor;
  get_waypoint : Vector3D → option Waypoint;
  ego_poll : nat → ActorState
}.

End carla.

(** ** Float operations of the Python runtime *)

Definition is_finite (f : float) : bool :=
  match Prim2SF f with
  | S754_zero _ | S754_finite _ _ _ => true
  | _ => false
  end.

(** [int(f)]: the magnitude [m * 2^e] of a finite float loses its
    fractional bits, the sign is put back; [int] of a NaN raises
    [ValueError], of an infinity [OverflowError]. *)
Definition int_of_float (f : float) : Outcome Z :=
  match Prim2SF f with
  | S754_zero _ => Return 0%Z
  | S754_finite s m e =>
      let magnitude :=
        if (0 <=? e)%Z then Z.shiftl (Z.pos m) e else Z.shiftr (Z.pos m) (- e) in
      Return (if s then (- magnitude)%Z else magnitude)
  | S754_infinity _ => Raise OverflowError
  | S754_nan => Raise ValueError
  end.

(** What a call of the C library leaves in [errno]: nothing, [ERANGE], or
    another code ([EDOM]). *)
Inductive Errno := no_error | ERANGE | EDOM.

(** The platform's C library: [pow_2 x] is the result of [pow(x, 2.0)] and
    the [errno] the call leaves.  [pow] is not required to be correctly
    rounded, and libraries differ in its last bit, so nothing is assumed
    about the result. *)
Class Libm := { pow_2 : float → float * Errno }.

(** [f ** 2], which is [float.__pow__(f, 2.0)] (CPython's [float_pow]).
    A NaN, an infinity and a zero are answered without the C library: NaN,
    [fabs(f)] and [0.0].  Any other base is replaced by its absolute value,
    the exponent being even; 1 gives [1.0]; otherwise the C library's [pow]
    is called.  An infinite result counts as [ERANGE], an [ERANGE] left with
    a zero result is dropped, and an [errno] that remains raises:
    [OverflowError] for [ERANGE], [ValueError] for any other. *)
Definition pow2 {libm : Libm} (f : float) : Outcome float :=
  match Prim2SF f with
  | S754_nan => Return f
  | S754_infinity _ => Return (abs f)
  | S754_zero _ => Return 0%float
  | S754_finite _ _ _ =>
      let iv := abs f in
      if (iv =? 1)%float then Return 1%float
      else
        let '(ix, errno) := pow_2 iv in
        let errno :=
          match errno with
          | no_error => if (abs ix =? infinity)%float then ERANGE else no_error
          | ERANGE => if (ix =? 0)%float then no_error else ERANGE
          | EDOM => EDOM
          end in
        match errno with
        | no_error => Return ix
        | ERANGE => Raise OverflowError
        | EDOM => Raise ValueError
        end
  end.

(** [math.sqrt(l.x**2 + l.y**2 + l.z**2)] of the two lambdas. *)
Definition norm {libm : Libm} (vx vy vz : float) : Outcome float :=
  xx ←! pow2 vx;
  yy ←! pow2 vy;
  zz ←! pow2 vz;
  Return (PrimFloat.sqrt (xx + yy + zz)%float).

(** ** [get_actor_display_name] *)

Definition is_lower (c : ascii) : bool :=
  (97 <=? nat_of_ascii c) && (nat_of_ascii c <=? 122).
Definition is_upper (c : ascii) : bool :=
  (65 <=? nat_of_ascii c) && (nat_of_ascii c <=? 90).
Definition to_upper (c : ascii) : ascii :=
  if is_lower c then ascii_of_nat (nat_of_ascii c - 32) else c.
Definition to_lower (c : ascii) : ascii :=
  if is_upper c then ascii_of_nat (nat_of_ascii c + 32) else c.

(** [str.replace(old, new)] for one-character strings. *)
Fixpoint replace_char (old new : ascii) (s : string) : string :=
  match s with
  | EmptyString => EmptyString
  | String c s' =>
      String (if Ascii.eqb c old then new else c) (replace_char old new s')
  end.

(** [str.title()]: a cased character is upper-cased when the previous
    character is not cased and lower-cased otherwise. *)
Fixpoint title (previous_is_cased : bool) (s : string) : string :=
  match s with
  | EmptyString => EmptyString
  | String c s' =>
      if is_lower c || is_upper c
      then String (if previous_is_cased then to_lower c else to_upper c) (title true s')
      else String c (title false s')
  end.

(** [str.split(sep)] for a one-character separator. *)
Fixpoint split (sep : ascii) (s : string) : list string :=
  match s with
  | EmptyString => [EmptyString]
  | String c s' =>
      if Ascii.eqb c sep then EmptyString :: split sep s'
      else match split sep s' with
           | [] => [String c EmptyString]
           | w :: ws => String c w :: ws
           end
  end.

(** [sep.join(words)] *)
Fixpoint join (sep : string) (words : list string) : string :=
  match words with
  | [] => EmptyString
  | [w] => w
  | w :: ws => (w ++ sep ++ join sep ws)%string
  end.

(** The horizontal ellipsis U+2026, in its UTF-8 bytes. *)
Definition ellipsis : string :=
  String (ascii_of_nat 226) (String (ascii_of_nat 128) (String (ascii_of_nat 166) EmptyString)).

(** [s[:stop]]: the first [stop] characters, all of [s] when it has
    fewer; a negative [stop] counts from the end. *)
Definition slice_to (stop : Z) (s : string) : string :=
  let stop :=
    if (stop <? 0)%Z then Z.max 0 (Z.of_nat (String.length s) + stop) else stop in
  String.substring 0 (Z.to_nat stop) s.

Definition get_actor_display_name (type_id : string) (truncate : Z) : string :=
  let name := join " " (drop 1 (split "." (title false (replace_char "_" "." type_id)))) in
  if (truncate <? Z.of_nat (String.length name))%Z
  then (slice_to (truncate - 1) name ++ ellipsis)%string
  else name.

(** ** [get_actor_attributes] *)

(** The dictionary the function returns, one field per key. *)
Record ActorAttributes := mkActorAttributes {
  velocity_abs : Z;
  velocity : Z * Z * Z;
  location : Z * Z * Z;
  rotation : Z * Z * Z;
  ang_velocity : Z * Z * Z;
  name_ : string
}.

(** The lambda [velocity] of line 405. *)
Definition velocity_lambda {libm : Libm} (l : carla.Vector3D) : Outcome float :=
  n ←! norm (carla.x l) (carla.y l) (carla.z l);
  Return (3.6 * n)%float.

Definition get_actor_attributes {libm : Libm} (type_id : string)
    (actor : carla.ActorState) : Outcome ActorAttributes :=
  let v_3d := carla.get_velocity actor in
  let t_3d := carla.get_transform actor in
  let l_3d := carla.location t_3d in
  let r_3d := carla.rotation t_3d in
  let a_3d := carla.get_angular_velocity actor in
  speed ←! velocity_lambda v_3d;
  velocity_abs ←! int_of_float speed;
  vx ←! int_of_float (carla.x v_3d);
  vy ←! int_of_float (carla.y v_3d);
  vz ←! int_of_float (carla.z v_3d);
  lx ←! int_of_float (carla.x l_3d);
  ly ←! int_of_float (carla.y l_3d);
  lz ←! int_of_float (carla.z l_3d);
  ryaw ←! int_of_float (carla.yaw r_3d);
  rroll ←! int_of_float (carla.roll r_3d);
  rpitch ←! int_of_float (carla.pitch r_3d);
  ax ←! int_of_float (carla.x a_3d);
  ay ←! int_of_float (carla.y a_3d);
  az ←! int_of_float (carla.z a_3d);
  Return (mkActorAttributes velocity_abs (vx, vy, vz) (lx, ly, lz)
            (ryaw, rroll, rpitch) (ax, ay, az)
            (get_actor_display_name type_id 250)).

(** ** [class SceneGraphExtractor] *)

(** [lanedict] and the per-frame dictionary of line 394, one field per
    key, named after the variables that fill them. *)
Record LaneDict := mkLaneDict {
  Current : Z;
  LaneWidth : float;
  Right : Z;
  Left : Z
}.

Record FrameRecord := mkFrameRecord {
  egodict : ActorAttributes;
  actordict : gmap Z ActorAttributes;
  peddict : gmap Z ActorAttributes;
  lightdict : gmap Z ActorAttributes;
  signdict : gmap Z ActorAttributes;
  lanedict : LaneDict
}.

(** [framedict] keeps insertion order, which names the files; [written]
    lists the files written so far under [output_dir], oldest first, each
    with the dictionary that was serialised into it. *)
Record SceneGraphExtractor := mkSceneGraphExtractor {
  output_root_dir : string;
  output_dir : string;
  framedict : list (Z * FrameRecord);
  ego : carla.Handle;
  written : list (string * list (Z * FrameRecord))
}.

(** [SceneGraphExtractor.__init__] *)
Definition SceneGraphExtractor_init (ego : carla.Handle) : SceneGraphExtractor :=
  mkSceneGraphExtractor "_out/" "_out/data/" [] ego [].

(** [d[k] = v] on an insertion-ordered dictionary: an existing key keeps
    its place, a new key goes to the end. *)
Fixpoint dict_set {V} (k : Z) (v : V) (d : list (Z * V)) : list (Z * V) :=
  match d with
  | [] => [(k, v)]
  | (k', v') :: d' =>
      if Z.eqb k' k then (k, v) :: d' else (k', v') :: dict_set k v d'
  end.

(** The name of the file of one window (line 400). *)
Definition window_file (output_dir : string) (first last : Z) : string :=
  (output_dir ++ pretty first ++ "-" ++ pretty last ++ ".txt")%string.

Definition set_framedict (d : list (Z * FrameRecord)) (self : SceneGraphExtractor)
  : SceneGraphExtractor :=
  mkSceneGraphExtractor (output_root_dir self) (output_dir self) d (ego self) (written self).

(** [open(name, 'w')] with [file.write(json.dumps(self.framedict))]. *)
Definition write_file (file : string) (self : SceneGraphExtractor) : SceneGraphExtractor :=
  mkSceneGraphExtractor (output_root_dir self) (output_dir self) (framedict self)
    (ego self) (written self ++ [(file, framedict self)]).

(** [SceneGraphExtractor.export_data] *)
Definition export_data (self : SceneGraphExtractor) : Outcome SceneGraphExtractor :=
  if length (framedict self) =? 50 then
    let keys := (framedict self).*1 in
    match keys !! 0, keys !! (length (framedict self) - 1) with
    | Some first, Some last =>
        Return (set_framedict [] (write_file (window_file (output_dir self) first last) self))
    | _, _ => Raise IndexError
    end
  else Return self.

(** Lines 394-396: the new record goes into [framedict], then
    [export_data] runs. *)
Definition append (frame : Z) (record : FrameRecord) (self : SceneGraphExtractor)
  : Outcome SceneGraphExtractor :=
  export_data (set_framedict (dict_set frame record (framedict self)) self).

(** A run of appends, oldest first. *)
Fixpoint appends (records : list (Z * FrameRecord)) (self : SceneGraphExtractor)
  : Outcome SceneGraphExtractor :=
  match records with
  | [] => Return self
  | (frame, record) :: records' =>
      self ←! append frame record self;
      appends records' self
  end.

Section extract_frame.

Context {libm : Libm}.

(** [carla.Location.distance], computed inside the simulator library. *)
Variable location_distance : carla.Vector3D → carla.Vector3D → float.

(** The lambda [distance] of line 354; [t] is the transform sampled at
    line 350. *)
Definition distance (t : carla.Transform) (l : carla.Vector3D) : Outcome float :=
  norm (carla.x l - carla.x (carla.location t))%float
       (carla.y l - carla.y (carla.location t))%float
       (carla.z l - carla.z (carla.location t))%float.

(** Lines 377-380. *)
Fixpoint for_vehicle_in (t : carla.Transform) (ego_id : Z)
    (vehicles : list carla.Actor) (actordict : gmap Z ActorAttributes)
  : Outcome (gmap Z ActorAttributes) :=
  match vehicles with
  | [] => Return actordict
  | vehicle :: vehicles' =>
      if negb (Z.eqb (carla.id vehicle) ego_id) then
        d ←! distance t (carla.get_location (carla.state vehicle));
        if (d <? 100)%float then
          attributes ←! get_actor_attributes (carla.type_id vehicle) (carla.state vehicle);
          for_vehicle_in t ego_id vehicles' (<[carla.id vehicle := attributes]> actordict)
        else for_vehicle_in t ego_id vehicles' actordict
      else for_vehicle_in t ego_id vehicles' actordict
  end.

(** Lines 382-384, 386-388 and 390-392, which differ in the list and the
    dictionary only.  Each candidate costs one position query of the
    monitored handle; [k] counts the queries made so far in the call. *)
Fixpoint for_nearby_in (world : carla.World) (candidates : list carla.Actor)
    (dict : gmap Z ActorAttributes) (k : nat)
  : Outcome (gmap Z ActorAttributes * nat) :=
  match candidates with
  | [] => Return (dict, k)
  | p :: candidates' =>
      let ego_location := carla.get_location (carla.ego_poll world k) in
      if (location_distance (carla.get_location (carla.state p)) ego_location <? 100)%float
      then
        attributes ←! get_actor_attributes (carla.type_id p) (carla.state p);
        for_nearby_in world candidates' (<[carla.id p := attributes]> dict) (S k)
      else for_nearby_in world candidates' dict (S k)
  end.

(** Lines 350-393 and the dictionary of line 394: the record of one
    frame, with the number of position queries made on the monitored
    handle ([get_transform] at line 350, [get_location] at line 361, the
    transform read for the handle's own attributes at line 373, then one
    per pedestrian, traffic light and sign). *)
Definition frame_record (world : carla.World) (self : SceneGraphExtractor)
  : Outcome (FrameRecord * nat) :=
  let t := carla.get_transform (carla.ego_poll world 0) in
  let vehicles := carla.get_actors_filter world "vehicle.*" in
  let pedestrians := carla.get_actors_filter world "walker.*" in
  let trafficlights := carla.get_actors_filter world "traffic.traffic_light" in
  let signs := carla.get_actors_filter world "traffic.traffic_sign" in
  waypoint ←!
    match carla.get_waypoint world (carla.get_location (carla.ego_poll world 1)) with
    | Some waypoint => Return waypoint
    | None => Raise AttributeError
    end;
  let lanedict :=
    mkLaneDict (carla.lane_type waypoint) (carla.lane_width waypoint)
      (carla.right_lane_marking_type waypoint) (carla.left_lane_marking_type waypoint) in
  egodict ←! get_actor_attributes (carla.handle_type_id (ego self)) (carla.ego_poll world 2);
  actordict ←!
    (if 1 <? length vehicles
     then for_vehicle_in t (carla.handle_id (ego self)) vehicles ∅
     else Return ∅);
  '(peddict, k) ←! for_nearby_in world pedestrians ∅ 3;
  '(lightdict, k) ←! for_nearby_in world trafficlights ∅ k;
  '(signdict, k) ←! for_nearby_in world signs ∅ k;
  Return (mkFrameRecord egodict actordict peddict lightdict signdict lanedict, k).

(** [SceneGraphExtractor.extract_frame] *)
Definition extract_frame (world : carla.World) (frame : Z) (self : SceneGraphExtractor)
  : Outcome (SceneGraphExtractor * nat) :=
  '(record, k) ←! frame_record world self;
  self ←! append frame record self;
  Return (self, k).

End extract_frame.

(** ** [class ScenarioManager] *)

(** What the manager does to its collaborators, in order. *)
Inductive Event :=
| AgentCall
| TickOnce (timestamp : carla.Timestamp)
| ApplyControl
| WorldTick
| ExtractFrame (frame : Z).

Record ScenarioManager := mkScenarioManager {
  scenario : option Scenario;
  _agent : bool;
  _running : bool;
  _timestamp_last_run : float;
  se : SceneGraphExtractor;
  statuses : gmap nat Status;
  trace : list Event
}.

Definition log (e : Event) (self : ScenarioManager) : ScenarioManager :=
  mkScenarioManager (scenario self) (_agent self) (_running self)
    (_timestamp_last_run self) (se self) (statuses self) (trace self ++ [e]).

Definition set_running (b : bool) (self : ScenarioManager) : ScenarioManager :=
  mkScenarioManager (scenario self) (_agent self) b
    (_timestamp_last_run self) (se self) (statuses self) (trace self).

(** [node.status], [INVALID] for a node that was never entered. *)
Definition status (σ : gmap nat Status) (n : Node) : Status :=
  default INVALID (σ !! node_id n).

Section manager.

Context {libm : Libm}.

Variable location_distance : carla.Vector3D → carla.Vector3D → float.

(** [scenario_tree.tick_once()] of the behaviour-tree engine, after
    [GameTime] took the timestamp: it rewrites the statuses of the tree. *)
Variable tick_once : Node → carla.Timestamp → gmap nat Status → gmap nat Status.

(** [ScenarioManager._tick_scenario] *)
Definition _tick_scenario (timestamp : carla.Timestamp) (self : ScenarioManager)
  : Outcome ScenarioManager :=
  self ←!
    (if (_timestamp_last_run self <? carla.elapsed_seconds timestamp)%float
        && _running self
     then
       match scenario self with
       | None => Raise AttributeError
       | Some sc =>
           let self := if _agent self then log AgentCall self else self in
           let σ := tick_once (scenario_tree sc) timestamp (statuses self) in
           let running :=
             if decide (status σ (scenario_tree sc) = RUNNING)
             then _running self else false in
           let self :=
             mkScenarioManager (scenario self) (_agent self) running
               (carla.elapsed_seconds timestamp) (se self) σ
               (trace self ++ [TickOnce timestamp]) in
           Return (if _agent self then log ApplyControl self else self)
       end
     else Return self);
  Return (if _agent self then log WorldTick self else self).

(** One round of the loop of lines 215-225; [poll] is [None] when the
    world or its snapshot is missing. *)
Definition loop_body (poll : option (carla.World * carla.Timestamp))
    (self : ScenarioManager) : Outcome ScenarioManager :=
  match poll with
  | None => Return self
  | Some (world, timestamp) =>
      self ←! _tick_scenario timestamp self;
      '(se', _) ←! extract_frame location_distance world (carla.frame timestamp) (se self);
      Return (mkScenarioManager (scenario self) (_agent self) (_running self)
                (_timestamp_last_run self) se' (statuses self)
                (trace self ++ [ExtractFrame (carla.frame timestamp)]))
  end.

(** [while self._running], fed with what the successive polls of the
    world give; it stops early when the polls end. *)
Fixpoint while_running (polls : list (option (carla.World * carla.Timestamp)))
    (self : ScenarioManager) : Outcome ScenarioManager :=
  if _running self then
    match polls with
    | [] => Return self
    | poll :: polls' =>
        self ←! loop_body poll self;
        while_running polls' self
    end
  else Return self.

(** [ScenarioManager.cleanup] *)
Definition cleanup (self : ScenarioManager) : Outcome ScenarioManager :=
  σ ←! match scenario self with
       | Some sc => terminate sc (statuses self)
       | None => Return (statuses self)
       end;
  Return (mkScenarioManager (scenario self) false (_running self)
            (_timestamp_last_run self) (se self) σ (trace self)).

(** [ScenarioManager.run_scenario]: the loop, then [cleanup]; with polls
    that end while the scenario still runs the call has not returned. *)
Definition run_scenario (polls : list (option (carla.World * carla.Timestamp)))
    (self : ScenarioManager) : Outcome ScenarioManager :=
  self ←! while_running polls (set_running true self);
  if _running self then OutOfFuel else cleanup self.

End manager.

(** [ScenarioManager.stop_scenario] *)
Definition stop_scenario (self : ScenarioManager) : ScenarioManager :=
  set_running false self.

(** ** Notions used by the statements *)

(** Identities of all nodes of a list of trees. *)
Definition forest_ids (l : list Node) : list nat := node_id <$> (l ≫= nodes).

(** The list the function returns once the loops are over. *)
Definition drop_lone_Parallel (node_list : list Node) : list Node :=
  match node_list with
  | [n] => if is_Parallel n then [] else node_list
  | _ => node_list
  end.

(** A criterion counts as failed in the scan when it is not optional and
    its [test_status] is neither "SUCCESS" nor "ACCEPTABLE". *)
Definition failed (c : Criterion) : bool :=
  negb (optional c)
  && negb (String.eqb (test_status c) "SUCCESS")
  && negb (String.eqb (test_status c) "ACCEPTABLE").

(** The exact value of a finite float is [float_num f / float_den f]. *)
Definition float_num (f : float) : Z :=
  match Prim2SF f with
  | S754_finite s m e =>
      let n := (Z.pos m * 2 ^ Z.max e 0)%Z in if s then (- n)%Z else n
  | _ => 0%Z
  end.

Definition float_den (f : float) : Z :=
  match Prim2SF f with
  | S754_finite _ _ e => (2 ^ Z.max (- e) 0)%Z
  | _ => 1%Z
  end.

(** Truncation toward zero of the exact value: the quotient that rounds
    toward zero. *)
Definition truncate_toward_zero (f : float) : Z :=
  Z.quot (float_num f) (float_den f).

(** The float the [velocity] lambda computes from the three squares. *)
Definition speed_kmh (xx yy zz : float) : float :=
  (3.6 * PrimFloat.sqrt (xx + yy + zz))%float.

(** The twelve components [get_actor_attributes] converts with [int]. *)
Definition components (actor : carla.ActorState) : list float :=
  let v := carla.get_velocity actor in
  let l := carla.location (carla.get_transform actor) in
  let r := carla.rotation (carla.get_transform actor) in
  let a := carla.get_angular_velocity actor in
  [carla.x v; carla.y v; carla.z v; carla.x l; carla.y l; carla.z l;
   carla.yaw r; carla.roll r; carla.pitch r; carla.x a; carla.y a; carla.z a].

(** The record of the truncations of [speed] and of the components. *)
Definition truncated_attributes (type_id : string) (actor : carla.ActorState)
    (speed : float) : ActorAttributes :=
  let v := carla.get_velocity actor in
  let l := carla.location (carla.get_transform actor) in
  let r := carla.rotation (carla.get_transform actor) in
  let a := carla.get_angular_velocity actor in
  let tr := truncate_toward_zero in
  mkActorAttributes (tr speed)
    (tr (carla.x v), tr (carla.y v), tr (carla.z v))
    (tr (carla.x l), tr (carla.y l), tr (carla.z l))
    (tr (carla.yaw r), tr (carla.roll r), tr (carla.pitch r))
    (tr (carla.x a), tr (carla.y a), tr (carla.z a))
    (get_actor_display_name type_id 250).

(** The squares [x ** 2], [y ** 2] and [z ** 2] of a vector are [xx],
    [yy] and [zz]: the three [**] return, with these values. *)
Definition squares {libm : Libm} (v : carla.Vector3D) (xx yy zz : float) : Prop :=
  pow2 (carla.x v) = Return xx ∧ pow2 (carla.y v) = Return yy ∧
  pow2 (carla.z v) = Return zz.



(** Number of [tick_once] calls in a trace. *)
Fixpoint tick_count (tr : list Event) : nat :=
  match tr with
  | [] => 0
  | TickOnce _ :: tr' => S (tick_count tr')
  | _ :: tr' => tick_count tr'
  end.

(** ** Concrete inputs *)

Definition failing : Node := Leaf 0 (Crit (mkCriterion false "FAILURE" false)).
Definition acceptable : Node := Leaf 1 (Crit (mkCriterion false "ACCEPTABLE" false)).

(** A scenario with the two criteria above, in this order, as
    [Scenario.__init__] builds it and after its [TimeOut] node has fired
    or not. *)
Definition failing_then_acceptable (fired : bool) : Scenario :=
  let criteria_tree := Comp 2 Parallel [failing; acceptable] in
  let timeout_node := Leaf 3 (TimeOut 60 fired) in
  mkScenario None (Some (CriteriaList [failing; acceptable])) 60 "scenario"
    (Some criteria_tree) timeout_node (Comp 4 Parallel [timeout_node; criteria_tree]).

(** Every node of that scenario is [RUNNING]. *)
Definition all_running : gmap nat Status :=
  list_to_map [(0, RUNNING); (1, RUNNING); (2, RUNNING); (3, RUNNING); (4, RUNNING)].

(** A criteria tree built by the caller, with a childless group beside
    its criterion. *)
Definition with_childless_group : Scenario :=
  let criteria_tree := Comp 2 Parallel [failing; Comp 5 Parallel []] in
  let timeout_node := Leaf 3 (TimeOut 60 false) in
  mkScenario None (Some (CriteriaTree criteria_tree)) 60 "scenario"
    (Some criteria_tree) timeout_node (Comp 4 Parallel [timeout_node; criteria_tree]).

(** A C library whose [pow(x, 2.0)] is the correctly rounded square, with
    [ERANGE] on overflow. *)
Definition correctly_rounded : Libm :=
  {| pow_2 x :=
       let r := (x * x)%float in
       (r, if is_finite x && negb (is_finite r) then ERANGE else no_error) |}.

Definition example_actor : carla.ActorState :=
  carla.mkActorState (carla.mkVector3D 10 0 0)
    (carla.mkTransform (carla.mkVector3D 1.9 (-1.9) 0) (carla.mkRotation 0 0 0))
    (carla.mkVector3D 0 0 0).

(** [carla.Location.distance] as the simulator documents it: the Euclidean
    distance of two locations. *)
Definition euclidean (a b : carla.Vector3D) : float :=
  PrimFloat.sqrt ((carla.x a - carla.x b) * (carla.x a - carla.x b)
                  + (carla.y a - carla.y b) * (carla.y a - carla.y b)
                  + (carla.z a - carla.z b) * (carla.z a - carla.z b))%float.

Definition at_rest (l : carla.Vector3D) : carla.ActorState :=
  carla.mkActorState (carla.mkVector3D 0 0 0)
    (carla.mkTransform l (carla.mkRotation 0 0 0)) (carla.mkVector3D 0 0 0).

Definition origin : carla.Vector3D := carla.mkVector3D 0 0 0.

Definition a_waypoint : carla.Waypoint := carla.mkWaypoint 2 3.5 1 1.

Definition hero : carla.Handle := carla.mkHandle 1 "vehicle.tesla.model3".


(** A world with the monitored vehicle and one other vehicle 3 units away. *)
Definition two_vehicle_world : carla.World :=
  carla.mkWorld
    (λ pattern, if String.eqb pattern "vehicle.*"
                then [carla.mkActor 1 "vehicle.tesla.model3" (at_rest origin);
                      carla.mkActor 7 "vehicle.audi.tt" (at_rest (carla.mkVector3D 3 0 0))]
                else [])
    (λ _, Some a_waypoint)
    (λ _, at_rest origin).


Definition frame_one : carla.Timestamp := carla.mkTimestamp 0.05 1.

(** A behaviour-tree engine whose root is [RUNNING] before simulated time
    [limit] and [SUCCESS] from then on. *)
Definition ends_at (limit : float) (root : Node) (timestamp : carla.Timestamp)
    (σ : gmap nat Status) : gmap nat Status :=
  <[node_id root :=
      if (carla.elapsed_seconds timestamp <? limit)%float then RUNNING else SUCCESS]> σ.

Definition frame_two : carla.Timestamp := carla.mkTimestamp 0.1 2.

(** The manager after [load_scenario], without agent. *)
Definition loaded : ScenarioManager :=
  mkScenarioManager (Some (failing_then_acceptable false)) false false 0
    (SceneGraphExtractor_init hero) ∅ [].

(** Frame records that differ in nothing but their frame ids
    [0, 1, 2, ...]. *)
Definition blank_attributes : ActorAttributes :=
  mkActorAttributes 0 (0, 0, 0)%Z (0, 0, 0)%Z (0, 0, 0)%Z (0, 0, 0)%Z "".

Definition blank_record : FrameRecord :=
  mkFrameRecord blank_attributes ∅ ∅ ∅ ∅ (mkLaneDict 2 3.5 1 1).

Definition numbered (n : nat) : list (Z * FrameRecord) :=
  (λ i, (Z.of_nat i, blank_record)) <$> seq 0 n.

(** ** Further notions used by the statements *)

(** The frontier of a tree is one childless [Parallel]. *)
Definition lone_Parallel (l : list Node) : Prop :=
  ∃ n, l = [n] ∧ is_Parallel n = true.

(** The criterion object with identity [p.1] and attributes [p.2]. *)
Definition criterion_node (p : nat * Criterion) : Node := Leaf p.1 (Crit p.2).

(** A criterion as the constructor leaves it. *)
Definition with_terminate_on_failure (b : bool) (p : nat * Criterion) : Node :=
  Leaf p.1 (Crit (mkCriterion (optional p.2) (test_status p.2) b)).

(** A criterion whose [test_status] is "ACCEPTABLE". *)
Definition accepted (c : Criterion) : bool :=
  String.eqb (test_status c) "ACCEPTABLE".

(** A file of one window written under [dir]: 50 records, named by the
    first and the last frame id in it. *)
Definition window_of (dir : string) (file : string * list (Z * FrameRecord)) : Prop :=
  length file.2 = 50 ∧
  ∃ first last, file.2.*1 !! 0 = Some first ∧ file.2.*1 !! 49 = Some last ∧
                file.1 = window_file dir first last.

(** The timestamps of the [tick_once] calls of a trace, oldest first. *)
Fixpoint ticked (tr : list Event) : list carla.Timestamp :=
  match tr with
  | [] => []
  | TickOnce timestamp :: tr' => timestamp :: ticked tr'
  | _ :: tr' => ticked tr'
  end.

(** Each timestamp of the list is strictly later in simulated time than
    the one before it. *)
Fixpoint later_each_time (l : list carla.Timestamp) : Prop :=
  match l with
  | a :: l' =>
      match l' with
      | b :: _ => (carla.elapsed_seconds a <? carla.elapsed_seconds b)%float = true
      | [] => True
      end ∧ later_each_time l'
  | [] => True
  end.

(** The ticks of the trace are in increasing simulated time, and the last
    of them is the one [_timestamp_last_run] remembers. *)
Definition ticks_in_order (self : ScenarioManager) : Prop :=
  later_each_time (ticked (trace self)) ∧
  ∀ a, last (ticked (trace self)) = Some a →
       _timestamp_last_run self = carla.elapsed_seconds a.

(** A world without a lane at the monitored vehicle's place. *)
Definition no_lane_world : carla.World :=
  carla.mkWorld (carla.get_actors_filter two_vehicle_world) (λ _, None)
    (carla.ego_poll two_vehicle_world).

(** [c in s] *)
Fixpoint occurs (c : ascii) (s : string) : bool :=
  match s with
  | EmptyString => false
  | String d s' => Ascii.eqb d c || occurs c s'
  end.

(** What follows the first [sep] of [s]; nothing when [s] has no [sep]. *)
Fixpoint after_first (sep : ascii) (s : string) : string :=
  match s with
  | EmptyString => EmptyString
  | String c s' => if Ascii.eqb c sep then s' else after_first sep s'
  end.

(** The display name said directly: the title-cased type id after its
    first separator, the other separators turned into spaces. *)
Definition spaced_name (type_id : string) : string :=
  replace_char "." " " (after_first "." (title false (replace_char "_" "." type_id))).

(** * Properties *)

(** ** [_extract_nodes_from_tree]: the loops end with the childless nodes *)

Lemma nodes_unfold n : nodes n = n :: (children n ≫= nodes).
Proof. by destruct n. Qed.

Lemma leaves_childless n : has_children n = false → leaves n = [n].
Proof. by destruct n as [|? ? [|]]. Qed.

Lemma leaves_parent n : has_children n = true → leaves n = children n ≫= leaves.
Proof. by destruct n as [|? ? [|]]. Qed.

Lemma forest_size_cons n l : forest_size (n :: l) = S (forest_size (children n) + forest_size l).
Proof.
  unfold forest_size. rewrite bind_cons, nodes_unfold. simpl.
  by rewrite length_app.
Qed.

Lemma forest_size_app l k : forest_size (l ++ k) = forest_size l + forest_size k.
Proof. unfold forest_size. by rewrite bind_app, length_app. Qed.

Lemma forest_ids_app l k : forest_ids (l ++ k) = forest_ids l ++ forest_ids k.
Proof. unfold forest_ids. by rewrite bind_app, fmap_app. Qed.

Lemma forest_ids_cons n l :
  forest_ids (n :: l) = node_id n :: forest_ids (children n) ++ forest_ids l.
Proof.
  unfold forest_ids. rewrite bind_cons, nodes_unfold. simpl.
  by rewrite fmap_app.
Qed.

Lemma root_ids_in_forest l i : i ∈ node_id <$> l → i ∈ forest_ids l.
Proof.
  induction l as [|n l IH]; simpl; [done|].
  rewrite forest_ids_cons. rewrite !elem_of_cons, elem_of_app.
  intros [->|H]; auto.
Qed.

Lemma list_remove_middle n done rest :
  node_id n ∉ node_id <$> done →
  list_remove n (done ++ n :: rest) = done ++ rest.
Proof.
  induction done as [|m done IH]; simpl; intros Hnin.
  - by rewrite Nat.eqb_refl.
  - apply not_elem_of_cons in Hnin as [Hne Hnin].
    destruct (Nat.eqb_spec (node_id m) (node_id n)); [congruence|].
    by rewrite IH.
Qed.

Lemma forest_ids_replace done n rest :
  forest_ids (done ++ n :: rest) ≡ₚ node_id n :: forest_ids ((done ++ rest) ++ children n).
Proof.
  rewrite !forest_ids_app, forest_ids_cons.
  rewrite <- Permutation_middle. constructor.
  rewrite <- !(assoc_L (++)).
  apply Permutation_app_head. apply Permutation_app_comm.
Qed.

Lemma forest_leaves_replace done n rest :
  has_children n = true →
  ((done ++ rest) ++ children n) ≫= leaves ≡ₚ (done ++ n :: rest) ≫= leaves.
Proof.
  intros Hn. rewrite !bind_app, bind_cons, (leaves_parent n Hn).
  rewrite <- !(assoc_L (++)).
  apply Permutation_app_head. apply Permutation_app_comm.
Qed.

Lemma for_node_in_spec fuel : ∀ done todo more,
  forest_size todo < fuel →
  NoDup (forest_ids (done ++ todo)) →
  ∃ l' more',
    for_node_in fuel (length done) (done ++ todo) more = Some (l', more') ∧
    l' ≫= leaves ≡ₚ (done ++ todo) ≫= leaves ∧
    NoDup (forest_ids l') ∧
    forest_size l' ≤ forest_size (done ++ todo) ∧
    (more' = false →
       more = false ∧ l' = done ++ todo ∧ Forall (λ n, has_children n = false) todo) ∧
    (more = false → more' = true → forest_size l' < forest_size (done ++ todo)).
Proof.
  induction fuel as [|fuel IH]; intros done todo more Hfuel Hnd; [lia|].
  destruct todo as [|n rest]; simpl.
  - rewrite lookup_ge_None_2 by (rewrite length_app; simpl; lia).
    exists (done ++ []), more. repeat split; auto; try lia.
    intros -> ?; done.
  - rewrite list_lookup_middle by done.
    rewrite forest_size_cons in Hfuel.
    destruct (has_children n) eqn:Hn.
    + assert (Hfresh : node_id n ∉ node_id <$> done).
      { intros Hin. rewrite forest_ids_app, forest_ids_cons in Hnd.
        apply NoDup_app in Hnd as (_ & Hdisj & _).
        apply (Hdisj (node_id n)); [by apply root_ids_in_forest | left]. }
      rewrite (list_remove_middle _ _ _ Hfresh).
      pose proof (forest_ids_replace done n rest) as Hperm.
      assert (Hnd' : NoDup (forest_ids ((done ++ rest) ++ children n))).
      { rewrite Hperm in Hnd. by apply NoDup_cons in Hnd as [_ ?]. }
      assert (Hsize : forest_size (done ++ n :: rest)
                      = S (forest_size ((done ++ rest) ++ children n))).
      { rewrite !forest_size_app, forest_size_cons. lia. }
      destruct (rest ++ children n) as [|x tl] eqn:Htl.
      { apply app_eq_nil in Htl as [_ Hch]. unfold has_children in Hn.
        by rewrite Hch in Hn. }
      assert (Hlist : (done ++ rest) ++ children n = (done ++ [x]) ++ tl).
      { by rewrite <- !(assoc_L (++)), Htl. }
      assert (Hx : forest_size (rest ++ children n) = S (forest_size (children x) + forest_size tl)).
      { by rewrite Htl, forest_size_cons. }
      rewrite forest_size_app in Hx.
      rewrite Hlist in *.
      destruct (IH (done ++ [x]) tl true) as (l' & more' & Hrun & Hlv & Hnd'' & Hsz & Hstop & _);
        [lia | done |].
      rewrite length_app in Hrun. simpl in Hrun. rewrite Nat.add_1_r in Hrun.
      exists l', more'. rewrite Hrun. split; [done|].
      split.
      { rewrite Hlv, <- Hlist. by apply forest_leaves_replace. }
      split; [done|]. split; [lia|]. split.
      * intros ->. by destruct Hstop as [? _].
      * intros _ _. lia.
    + destruct (IH (done ++ [n]) rest more) as (l' & more' & Hrun & Hlv & Hnd' & Hsz & Hstop & Hdec).
      { lia. }
      { by rewrite <- (assoc_L (++)). }
      rewrite length_app in Hrun. simpl in Hrun. rewrite Nat.add_1_r in Hrun.
      rewrite <- (assoc_L (++)) in Hrun, Hlv, Hsz, Hstop, Hdec. simpl in *.
      exists l', more'. rewrite Hrun. repeat split; auto.
      * by apply Hstop.
      * by apply Hstop.
      * constructor; [done|]. by apply Hstop.
Qed.

Lemma childless_forest_leaves l :
  Forall (λ n, has_children n = false) l → l ≫= leaves = l.
Proof.
  induction 1 as [|n l Hn _ IH]; [done|].
  by rewrite bind_cons, (leaves_childless n Hn), IH.
Qed.

Lemma while_more_nodes_exist_spec inner fuel : ∀ l,
  forest_size l < fuel →
  forest_size l < inner →
  NoDup (forest_ids l) →
  ∃ l', while_more_nodes_exist fuel inner l = Some l' ∧
        l' ≡ₚ l ≫= leaves ∧
        Forall (λ n, has_children n = false) l'.
Proof.
  induction fuel as [|fuel IH]; intros l Hfuel Hinner Hnd; [lia|].
  destruct (for_node_in_spec inner [] l false Hinner Hnd)
    as (l1 & more' & Hrun & Hlv & Hnd1 & Hsz & Hstop & Hdec).
  simpl in *. rewrite Hrun. destruct more'.
  - specialize (Hdec eq_refl eq_refl).
    destruct (IH l1) as (l' & Hloop & Hperm & Hall); [lia | lia | done |].
    exists l'. rewrite Hloop. split; [done|]. split; [|done].
    by rewrite Hperm, Hlv.
  - destruct Hstop as (_ & -> & Hall); [done|].
    exists l. by rewrite (childless_forest_leaves l Hall).
Qed.

Lemma extract_nodes_from_tree_spec root :
  NoDup (node_id <$> nodes root) →
  ∃ l, _extract_nodes_from_tree (Some root) = Return (drop_lone_Parallel l) ∧
       l ≡ₚ leaves root ∧
       Forall (λ n, has_children n = false) l.
Proof.
  intros Hnd. unfold _extract_nodes_from_tree.
  assert (Hsz : forest_size [root] = tree_size root).
  { unfold forest_size, tree_size. by rewrite bind_singleton. }
  destruct (while_more_nodes_exist_spec (S (tree_size root)) (S (tree_size root)) [root])
    as (l & Hloop & Hperm & Hall); [lia | lia | |].
  { unfold forest_ids. by rewrite bind_singleton. }
  rewrite Hloop. exists l. rewrite bind_singleton in Hperm.
  split; [|done].
  unfold drop_lone_Parallel. destruct l as [|n [|]]; try done.
  by destruct (is_Parallel n).
Qed.

(** Induction on trees, with the hypothesis for every child. *)
Lemma Node_ind_Forall (P : Node → Prop) :
  (∀ i b, P (Leaf i b)) →
  (∀ i k ch, Forall P ch → P (Comp i k ch)) →
  ∀ n, P n.
Proof.
  intros Hleaf Hcomp. fix IH 1. intros [i b|i k ch]; [apply Hleaf|].
  apply Hcomp. induction ch as [|c ch IHch]; constructor; [apply IH | apply IHch].
Qed.

Lemma leaves_filter_nodes n :
  leaves n = filter (λ m, has_children m = false) (nodes n).
Proof.
  induction n as [i b|i k ch IH] using Node_ind_Forall; [done|].
  destruct ch as [|c ch]; [done|].
  change (leaves (Comp i k (c :: ch))) with ((c :: ch) ≫= leaves).
  rewrite nodes_unfold. rewrite filter_cons_False by done.
  change (children (Comp i k (c :: ch))) with (c :: ch).
  induction IH as [|c' ch' Hc' _ IH']; [done|].
  by rewrite !bind_cons, filter_app, Hc', IH'.
Qed.

Lemma leaves_in_nodes n m : m ∈ leaves n ↔ m ∈ nodes n ∧ has_children m = false.
Proof. rewrite leaves_filter_nodes, list_elem_of_filter. tauto. Qed.

Lemma NoDup_fmap_inj {A B} (f : A → B) (l : list A) x y :
  NoDup (f <$> l) → x ∈ l → y ∈ l → f x = f y → x = y.
Proof.
  induction l as [|a l IH]; simpl; intros Hnd Hx Hy Hf; [by apply elem_of_nil in Hx|].
  apply NoDup_cons in Hnd as [Ha Hnd].
  apply elem_of_cons in Hx as [->|Hx]; apply elem_of_cons in Hy as [->|Hy]; auto.
  - destruct Ha. rewrite Hf. by apply list_elem_of_fmap_2.
  - destruct Ha. rewrite <- Hf. by apply list_elem_of_fmap_2.
Qed.

Lemma NoDup_leaves n : NoDup (node_id <$> nodes n) → NoDup (leaves n).
Proof.
  intros Hnd. rewrite leaves_filter_nodes.
  apply NoDup_filter. by apply NoDup_fmap_1 in Hnd.
Qed.

(** ** [Scenario.terminate] *)

Lemma foldl_node_terminate_lookup l : ∀ σ i,
  foldl (λ σ node, node_terminate node INVALID σ) σ l !! i
  = if decide (i ∈ node_id <$> l) then Some INVALID else σ !! i.
Proof.
  induction l as [|n l IH]; intros σ i; cbn [foldl].
  - destruct (decide _) as [H|]; [by apply elem_of_nil in H | done].
  - rewrite IH, fmap_cons. unfold node_terminate.
    destruct (decide (i = node_id n)) as [->|Hne].
    + rewrite lookup_insert_eq.
      rewrite (decide_True (P := _ ∈ _ :: _)) by left.
      by destruct (decide _).
    + rewrite lookup_insert_ne by done.
      destruct (decide (i ∈ node_id <$> l)) as [Hin|Hnin].
      * by rewrite decide_True by (by right).
      * rewrite decide_False; [done|].
        intros [?|?]%elem_of_cons; done.
Qed.

Lemma Scenario_init_tree behavior criteria name timeout tof alloc sc :
  Scenario_init behavior criteria name timeout tof alloc = Return sc →
  timeout_node sc = Leaf (alloc + 1) (TimeOut timeout false) ∧
  has_children (scenario_tree sc) = true ∧
  timeout_node sc ∈ children (scenario_tree sc).
Proof.
  unfold Scenario_init. intros H.
  destruct criteria as [[l|t]|]; simpl in H;
    [|destruct (is_Parallel t); simpl in H; [|done]|];
    injection H as <-; simpl; (split; [done|]);
    (split; [by destruct behavior | set_solver]).
Qed.

(** C2 (as amended).  [Scenario.terminate] returns, and in the scenario
    tree built by the constructor it sets to [INVALID] the status of every
    node without children, however deep and whatever its status was; a node
    that has children keeps the status it had. *)
Theorem terminate_resets_leaves behavior criteria name timeout tof alloc sc σ :
  Scenario_init behavior criteria name timeout tof alloc = Return sc →
  NoDup (node_id <$> nodes (scenario_tree sc)) →
  ∃ σ', terminate sc σ = Return σ' ∧
    ∀ n, n ∈ nodes (scenario_tree sc) →
      status σ' n = if has_children n then status σ n else INVALID.
Proof.
  intros Hinit Hnd.
  destruct (Scenario_init_tree _ _ _ _ _ _ _ Hinit) as (Htn & Hroot & Hin).
  destruct (extract_nodes_from_tree_spec _ Hnd) as (l & Hex & Hperm & Hall).
  assert (Htl : timeout_node sc ∈ l).
  { rewrite Hperm, (leaves_parent _ Hroot). apply list_elem_of_bind.
    exists (timeout_node sc). split; [|done]. rewrite Htn. simpl. set_solver. }
  assert (Hdrop : drop_lone_Parallel l = l).
  { destruct l as [|m [|]]; try done. simpl.
    apply list_elem_of_singleton in Htl as <-. by rewrite Htn. }
  rewrite Hdrop in Hex. unfold terminate. rewrite Hex. simpl.
  eexists. split; [done|]. intros n Hn. unfold status.
  rewrite foldl_node_terminate_lookup.
  destruct (has_children n) eqn:Hch;
    destruct (decide (node_id n ∈ node_id <$> l)) as [Hid|Hid]; try done.
  - apply list_elem_of_fmap in Hid as (m & Hm & Hml).
    rewrite Hperm in Hml. apply leaves_in_nodes in Hml as [Hmn Hmc].
    assert (n = m) by eauto using NoDup_fmap_inj. congruence.
  - destruct Hid. apply list_elem_of_fmap_2. rewrite Hperm.
    by apply leaves_in_nodes.
Qed.

Lemma failing_then_acceptable_NoDup :
  NoDup (node_id <$> nodes (scenario_tree (failing_then_acceptable false))).
Proof. apply (bool_decide_unpack _). exact I. Qed.

Lemma terminate_resets_leaves_witness :
  ∃ σ', terminate (failing_then_acceptable false) all_running = Return σ' ∧
        status σ' acceptable = INVALID ∧
        status σ' (scenario_tree (failing_then_acceptable false)) = RUNNING.
Proof.
  destruct (terminate_resets_leaves None (Some (CriteriaList [failing; acceptable]))
              "scenario" 60 false 2 (failing_then_acceptable false) all_running
              eq_refl failing_then_acceptable_NoDup) as (σ' & Hrun & Hall).
  exists σ'. split; [exact Hrun|]. split.
  - apply (Hall acceptable). apply list_elem_of_In. simpl. tauto.
  - apply (Hall (scenario_tree (failing_then_acceptable false))). left.
Defined.

(** C2 (as stated) fails: with every node [RUNNING], [terminate] leaves the
    root group and the criteria group [RUNNING]; only the leaves become
    [INVALID]. *)
Lemma terminate_keeps_composite_status :
  ∃ σ', terminate (failing_then_acceptable false) all_running = Return σ' ∧
        status σ' (scenario_tree (failing_then_acceptable false)) = RUNNING ∧
        status σ' (Comp 2 Parallel [failing; acceptable]) = RUNNING ∧
        status σ' failing = INVALID.
Proof. eexists. split; [vm_compute; reflexivity|]. by vm_compute. Qed.

(** ** [Scenario.get_criteria] *)

(** C7 (as amended).  When a criteria tree exists, [get_criteria] returns
    without raising; the result is empty when the tree comes down to one
    childless [Parallel]; it has no repetition, holds only nodes of the tree
    that have no children, and holds every criterion of the tree. *)
Theorem get_criteria_returns_leaves sc t :
  criteria_tree sc = Some t →
  NoDup (node_id <$> nodes t) →
  ∃ l, get_criteria sc = Return l ∧
       ((∃ n, leaves t = [n] ∧ is_Parallel n = true) → l = []) ∧
       NoDup l ∧
       (∀ n, n ∈ l → n ∈ nodes t ∧ children n = []) ∧
       (∀ i c, Leaf i (Crit c) ∈ nodes t → Leaf i (Crit c) ∈ l).
Proof.
  intros Ht Hnd. unfold get_criteria. rewrite Ht.
  destruct (extract_nodes_from_tree_spec _ Hnd) as (l & Hex & Hperm & Hall).
  exists (drop_lone_Parallel l). split; [done|].
  assert (Hsub : ∀ n, n ∈ drop_lone_Parallel l → n ∈ l).
  { destruct l as [|m [|]]; try done. simpl. destruct (is_Parallel m); [|done].
    intros n Hn. by apply elem_of_nil in Hn. }
  split; [|split; [|split]].
  - intros (n & Hl & Hp). rewrite Hl in Hperm.
    apply Permutation_singleton_r in Hperm as ->. simpl. by rewrite Hp.
  - assert (NoDup l) by (rewrite Hperm; by apply NoDup_leaves).
    destruct l as [|m [|]]; try done. simpl. destruct (is_Parallel m); [constructor|done].
  - intros n Hn. apply Hsub in Hn. rewrite Hperm in Hn.
    apply leaves_in_nodes in Hn as [? Hc]. split; [done|].
    unfold has_children in Hc. by destruct (children n).
  - intros i c Hn.
    assert (Hl : Leaf i (Crit c) ∈ l).
    { rewrite Hperm. by apply leaves_in_nodes. }
    destruct l as [|m [|]]; try done. simpl.
    apply list_elem_of_singleton in Hl as <-. simpl. set_solver.
Qed.

Lemma get_criteria_returns_leaves_witness :
  ∃ l, get_criteria (failing_then_acceptable false) = Return l ∧
       failing ∈ l ∧ acceptable ∈ l.
Proof.
  destruct (get_criteria_returns_leaves (failing_then_acceptable false)
              (Comp 2 Parallel [failing; acceptable]) eq_refl) as (l & Hrun & _ & _ & _ & Hall).
  { apply (bool_decide_unpack _). exact I. }
  exists l. split; [exact Hrun|]. split; apply Hall; apply list_elem_of_In; simpl; tauto.
Defined.

(** C7 (as stated) fails: without a criteria tree [get_criteria] raises
    [AttributeError] instead of returning the empty list. *)
Lemma get_criteria_raises_without_criteria :
  ∃ sc, Scenario_init None None "scenario" 60 false 0 = Return sc ∧
        criteria_tree sc = None ∧
        get_criteria sc = Raise AttributeError.
Proof. eexists. split; [reflexivity|]. split; reflexivity. Qed.

(** A childless group beside a criterion stays in the list, and the scan of
    [analyze_scenario] then fails on it. *)
Lemma get_criteria_childless_group :
  get_criteria with_childless_group = Return [failing; Comp 5 Parallel []] ∧
  analyze_scenario with_childless_group = Raise AttributeError.
Proof. split; reflexivity. Qed.

(** ** [ScenarioManager.analyze_scenario] *)

Lemma failing_then_acceptable_init :
  Scenario_init None (Some (CriteriaList [failing; acceptable])) "scenario" 60 false 2
  = Return (failing_then_acceptable false).
Proof. reflexivity. Qed.

Lemma scan_criterion_flag st c :
  (scan_criterion st c).1 = st.1 || failed c.
Proof.
  destruct st as [failure result]. unfold scan_criterion, failed.
  destruct (negb (optional c) && _ && _); simpl; [by rewrite orb_true_r|].
  rewrite orb_false_r. by destruct (String.eqb _ _).
Qed.

Lemma scan_criterion_result st c :
  st.2 ≠ "TIMEOUT" → (scan_criterion st c).2 ≠ "TIMEOUT".
Proof.
  destruct st as [failure result]. unfold scan_criterion.
  destruct (negb (optional c) && _ && _); simpl; [done|].
  by destruct (String.eqb _ _).
Qed.

(** The [failure] flag of the scan is latched: it is set as soon as one
    failed criterion is met and never cleared. *)
Lemma for_criterion_in_flag l : ∀ st st',
  for_criterion_in l st = Return st' →
  (st'.1 = true ↔ st.1 = true ∨ ∃ i c, Leaf i (Crit c) ∈ l ∧ failed c = true) ∧
  (st.2 ≠ "TIMEOUT" → st'.2 ≠ "TIMEOUT").
Proof.
  induction l as [|n l IH]; intros st st' Hrun; simpl in Hrun.
  - injection Hrun as <-. split; [|done]. split; [auto|].
    intros [?|(i & c & Hin & _)]; [done|]. by apply elem_of_nil in Hin.
  - destruct n as [i [| |c]|]; simpl in Hrun; try done.
    apply IH in Hrun as [Hflag Hres]. split.
    + rewrite Hflag, scan_criterion_flag, orb_true_iff. split.
      * intros [[?|?]|(j & c' & Hin & Hc')]; auto.
        -- right. exists i, c. split; [left|done].
        -- right. exists j, c'. split; [by right|done].
      * intros [?|(j & c' & Hin & Hc')]; auto.
        apply elem_of_cons in Hin as [Heq|Hin].
        -- injection Heq as -> ->. auto.
        -- right. eauto.
    + intros Hst. by apply Hres, scan_criterion_result.
Qed.

(** The part of the timeout rule that holds: "TIMEOUT" is reported only
    when the [TimeOut] node fired and the scan met no failed criterion, and
    then the call returns [True]. *)
Lemma analyze_scenario_timeout sc a :
  analyze_scenario sc = Return a →
  reported a = Some "TIMEOUT" →
  node_timeout (timeout_node sc) = Return true ∧
  returned a = true ∧
  ∃ l, get_criteria sc = Return l ∧ ∀ i c, Leaf i (Crit c) ∈ l → failed c = false.
Proof.
  unfold analyze_scenario. cbv zeta.
  destruct (test_criteria sc) as [given|]; [|intros H; by injection H as <-].
  destruct (get_criteria sc) as [l| |]; simpl; try done.
  destruct (for_criterion_in l (false, "SUCCESS")) as [[failure result]| |] eqn:Hscan;
    simpl; try done.
  apply for_criterion_in_flag in Hscan as [Hflag Hres]. simpl in *.
  destruct (node_timeout (timeout_node sc)) as [fired| |]; simpl; try done.
  assert (Hresult : result ≠ "TIMEOUT") by (by apply Hres).
  destruct fired, failure; simpl; intros H; injection H as <-; simpl;
    intros Hr; try (by injection Hr).
  split; [done|]. split; [done|]. exists l. split; [done|].
  intros i c Hin. destruct (failed c) eqn:Hc; [|done].
  assert (false = true) as [=]. apply Hflag. right. eauto.
Qed.

(** C1.  The claim asks that a failure met in the scan fixes the verdict.
    The code latches the [failure] flag only: for a non-optional criterion
    with status "FAILURE" followed by one with status "ACCEPTABLE" it
    reports "ACCEPTABLE" and returns [True]. *)
Theorem analyze_scenario_failure_overwritten :
  analyze_scenario (failing_then_acceptable false)
  = Return (mkAnalysis (Some "ACCEPTABLE") true).
Proof. reflexivity. Qed.

(** C5.  The claim asks for the verdict "FAILURE" whenever a non-optional
    criterion failed and the timeout fired.  The timeout does not override
    the failure, but with the same two criteria and a fired [TimeOut] the
    code reports "ACCEPTABLE". *)
Theorem analyze_scenario_failure_with_timeout_overwritten :
  analyze_scenario (failing_then_acceptable true)
  = Return (mkAnalysis (Some "ACCEPTABLE") true).
Proof. reflexivity. Qed.

(** C3.  The claim asks for a false flag when no criteria were configured.
    The code returns [True] there, the value that means failure or timeout
    on its other path, and writes no report. *)
Theorem analyze_scenario_no_criteria sc :
  test_criteria sc = None →
  analyze_scenario sc = Return (mkAnalysis None true).
Proof. unfold analyze_scenario. by intros ->. Qed.

Lemma analyze_scenario_no_criteria_witness :
  ∃ sc, Scenario_init None None "scenario" 60 false 0 = Return sc ∧
        test_criteria sc = None ∧
        analyze_scenario sc = Return (mkAnalysis None true).
Proof.
  eexists. split; [reflexivity|]. split; [reflexivity|].
  apply analyze_scenario_no_criteria. reflexivity.
Defined.

(** ** The windowed writer *)

Lemma dict_set_fresh {V} k (v : V) d : k ∉ d.*1 → dict_set k v d = d ++ [(k, v)].
Proof.
  induction d as [|[k' v'] d IH]; simpl; [done|]. intros Hk.
  apply not_elem_of_cons in Hk as [Hne Hk].
  destruct (Z.eqb_spec k' k); [congruence|]. by rewrite IH.
Qed.

Lemma length_dict_set {V} k (v : V) d :
  0 < length (dict_set k v d) ≤ S (length d).
Proof.
  induction d as [|[k' v'] d IH]; simpl; [lia|].
  destruct (Z.eqb k' k); simpl; lia.
Qed.

(** [export_data] never raises, and leaves fewer than 50 records. *)
Lemma export_data_size self :
  length (framedict self) ≤ 50 →
  ∃ self', export_data self = Return self' ∧ length (framedict self') < 50.
Proof.
  intros Hle. unfold export_data.
  destruct (Nat.eqb_spec (length (framedict self)) 50) as [H50|Hne].
  - destruct (lookup_lt_is_Some_2 (framedict self).*1 0) as [first ->];
      [rewrite length_fmap; lia|].
    destruct (lookup_lt_is_Some_2 (framedict self).*1 (length (framedict self) - 1))
      as [last ->]; [rewrite length_fmap; lia|].
    eexists. split; [done|]. simpl. lia.
  - exists self. split; [done|]. lia.
Qed.

Lemma append_size frame record self :
  length (framedict self) < 50 →
  length (dict_set frame record (framedict self)) ≤ 50 ∧
  ∃ self', append frame record self = Return self' ∧ length (framedict self') < 50.
Proof.
  intros Hlt. pose proof (length_dict_set frame record (framedict self)).
  split; [lia|]. apply export_data_size. simpl. lia.
Qed.

Lemma append_below frame record self :
  frame ∉ (framedict self).*1 →
  S (length (framedict self)) < 50 →
  append frame record self
  = Return (set_framedict (framedict self ++ [(frame, record)]) self).
Proof.
  intros Hfresh Hlt. unfold append, export_data. rewrite dict_set_fresh by done.
  cbn [framedict set_framedict]. rewrite length_app. simpl.
  destruct (Nat.eqb_spec (length (framedict self) + 1) 50); [lia|done].
Qed.

Lemma append_full frame record self first :
  frame ∉ (framedict self).*1 →
  length (framedict self) = 49 →
  (framedict self ++ [(frame, record)]).*1 !! 0 = Some first →
  append frame record self
  = Return (set_framedict []
      (write_file (window_file (output_dir self) first frame)
         (set_framedict (framedict self ++ [(frame, record)]) self))).
Proof.
  intros Hfresh Hlen Hfirst. unfold append, export_data.
  rewrite dict_set_fresh by done.
  cbn [framedict set_framedict output_dir]. rewrite length_app, Hlen. simpl Nat.eqb. cbv iota.
  rewrite Hfirst. simpl Nat.sub.
  rewrite fmap_app, lookup_app_r by (rewrite length_fmap; lia).
  rewrite length_fmap, Hlen. done.
Qed.

Lemma appends_app l1 l2 self :
  appends (l1 ++ l2) self = (self' ←! appends l1 self; appends l2 self').
Proof.
  revert self. induction l1 as [|[k v] l1 IH]; intros self; simpl; [done|].
  destruct (append k v self); simpl; auto.
Qed.

Lemma appends_below records : ∀ self,
  NoDup ((framedict self).*1 ++ records.*1) →
  length (framedict self) + length records < 50 →
  appends records self = Return (set_framedict (framedict self ++ records) self).
Proof.
  induction records as [|[k v] records IH]; intros self Hnd Hlen; simpl in *.
  - rewrite app_nil_r. by destruct self.
  - assert (Hfresh : k ∉ (framedict self).*1).
    { apply NoDup_app in Hnd as (_ & Hdisj & _). intros Hk.
      apply (Hdisj k Hk). left. }
    rewrite append_below by (done || lia). simpl.
    rewrite IH; cbn [framedict set_framedict].
    + by rewrite <- (assoc_L (++)).
    + by rewrite fmap_app, <- (assoc_L (++)).
    + rewrite length_app. simpl. lia.
Qed.

(** The sizes of [framedict] after each append of a run never reach 50. *)
Lemma appends_size records : ∀ self,
  length (framedict self) < 50 →
  ∃ self', appends records self = Return self' ∧ length (framedict self') < 50.
Proof.
  induction records as [|[k v] records IH]; intros self Hlt; simpl; [eauto|].
  destruct (append_size k v self Hlt) as (_ & self1 & -> & Hlt1). simpl. eauto.
Qed.

(** A window: 50 fresh records on an empty buffer give one file, named by
    the first and the last frame, and an empty buffer. *)
Lemma appends_window records first last : ∀ self,
  framedict self = [] →
  NoDup records.*1 →
  length records = 50 →
  records.*1 !! 0 = Some first →
  records.*1 !! 49 = Some last →
  appends records self
  = Return (mkSceneGraphExtractor (output_root_dir self) (output_dir self) [] (ego self)
              (written self ++ [(window_file (output_dir self) first last, records)])).
Proof.
  intros self Hempty Hnd Hlen Hfirst Hlast.
  destruct (lookup_lt_is_Some_2 records 49) as [[k v] Hkv]; [lia|].
  assert (Hsplit : records = take 49 records ++ [(k, v)]).
  { rewrite <- (take_drop 49 records) at 1. f_equal.
    rewrite (drop_S _ _ _ Hkv), drop_ge by lia. done. }
  assert (Hk : last = k).
  { rewrite list_lookup_fmap, Hkv in Hlast. by injection Hlast. }
  subst last.
  rewrite Hsplit, appends_app.
  rewrite appends_below; rewrite ?Hempty; simpl.
  - rewrite (append_full _ _ _ first); cbn [framedict set_framedict output_dir]; simpl.
    + unfold set_framedict, write_file. simpl. by rewrite <- Hsplit.
    + rewrite Hsplit, fmap_app in Hnd. apply NoDup_app in Hnd as (_ & Hdisj & _).
      intros Hin. apply (Hdisj k Hin). simpl. left.
    + rewrite length_take. lia.
    + by rewrite <- Hsplit.
  - rewrite Hsplit, fmap_app in Hnd. by apply NoDup_app in Hnd as (? & _ & _).
  - rewrite length_take. lia.
Qed.

Lemma take_drop_keys {V} (l : list (Z * V)) n m :
  NoDup l.*1 → NoDup (take m (drop n l)).*1.
Proof.
  intros Hnd. rewrite <- (take_drop n l), fmap_app in Hnd.
  apply NoDup_app in Hnd as (_ & _ & Hnd).
  rewrite <- (take_drop m (drop n l)), fmap_app in Hnd.
  by apply NoDup_app in Hnd as (? & _ & _).
Qed.

(** C6.  Records with pairwise distinct frame ids are appended to a fresh
    extractor.  After each append the buffer holds fewer than 50 records,
    and at most 50 right after the insertion.  With 49 records nothing is
    written.  With 50 records one file is written, named by the first and
    the last frame id, it holds the 50 records, and the buffer is empty.
    With 101 records two files are written, for the first and the second
    fifty; no frame id is in both, and when the ids increase the last id of
    the first file is below the first id of the second. *)
Theorem windowed_writer_flushes (ego : carla.Handle) (records : list (Z * FrameRecord)) :
  NoDup records.*1 →
  let start := SceneGraphExtractor_init ego in
  (∀ n, ∃ self,
      appends (take n records) start = Return self ∧
      length (framedict self) < 50 ∧
      ∀ frame record, records !! n = Some (frame, record) →
        length (dict_set frame record (framedict self)) ≤ 50) ∧
  (length records = 49 →
     ∃ self, appends records start = Return self ∧
             written self = [] ∧ framedict self = records) ∧
  (length records = 50 →
     ∃ first last self,
       records.*1 !! 0 = Some first ∧ records.*1 !! 49 = Some last ∧
       appends records start = Return self ∧
       written self = [(window_file "_out/data/" first last, records)] ∧
       framedict self = []) ∧
  (length records = 101 →
     ∃ first1 last1 first2 last2 self,
       records.*1 !! 0 = Some first1 ∧ records.*1 !! 49 = Some last1 ∧
       records.*1 !! 50 = Some first2 ∧ records.*1 !! 99 = Some last2 ∧
       appends records start = Return self ∧
       written self = [(window_file "_out/data/" first1 last1, take 50 records);
                       (window_file "_out/data/" first2 last2, take 50 (drop 50 records))] ∧
       framedict self = drop 100 records ∧
       (∀ k, k ∈ (take 50 records).*1 → k ∉ (take 50 (drop 50 records)).*1) ∧
       ((∀ i j a b, i < j → records.*1 !! i = Some a → records.*1 !! j = Some b → (a < b)%Z) →
        (last1 < first2)%Z)).
Proof.
  intros Hnd start. split; [|split; [|split]].
  - intros n.
    destruct (appends_size (take n records) start) as (self & Hrun & Hlt);
      [simpl; lia|].
    exists self. split; [done|]. split; [done|]. intros frame record _.
    by apply append_size.
  - intros Hlen. eexists. split.
    + apply appends_below; simpl; [done | lia].
    + done.
  - intros Hlen.
    destruct (lookup_lt_is_Some_2 records.*1 0) as [first Hfirst];
      [rewrite length_fmap; lia|].
    destruct (lookup_lt_is_Some_2 records.*1 49) as [last Hlast];
      [rewrite length_fmap; lia|].
    exists first, last. eexists. split; [done|]. split; [done|]. split.
    + by apply appends_window.
    + done.
  - intros Hlen.
    destruct (lookup_lt_is_Some_2 records.*1 0) as [first1 Hfirst1];
      [rewrite length_fmap; lia|].
    destruct (lookup_lt_is_Some_2 records.*1 49) as [last1 Hlast1];
      [rewrite length_fmap; lia|].
    destruct (lookup_lt_is_Some_2 records.*1 50) as [first2 Hfirst2];
      [rewrite length_fmap; lia|].
    destruct (lookup_lt_is_Some_2 records.*1 99) as [last2 Hlast2];
      [rewrite length_fmap; lia|].
    exists first1, last1, first2, last2. eexists.
    do 4 (split; [done|]).
    assert (Hsplit : records
              = take 50 records ++ take 50 (drop 50 records) ++ drop 100 records).
    { rewrite <- (take_drop 50 records) at 1. f_equal.
      rewrite <- (take_drop 50 (drop 50 records)) at 1. f_equal.
      by rewrite drop_drop. }
    split; [|split; [|split; [|split]]].
    + rewrite Hsplit at 1. rewrite appends_app.
      rewrite (appends_window _ first1 last1); simpl.
      * rewrite appends_app, (appends_window _ first2 last2); simpl.
        -- apply appends_below; simpl.
           ++ apply (take_drop_keys records 100 1) in Hnd.
              by rewrite take_ge in Hnd by (rewrite length_drop; lia).
           ++ rewrite length_drop. lia.
        -- done.
        -- by apply take_drop_keys.
        -- rewrite length_take, length_drop. lia.
        -- rewrite fmap_take, fmap_drop, lookup_take_lt, lookup_drop by lia.
           done.
        -- rewrite fmap_take, fmap_drop, lookup_take_lt, lookup_drop by lia.
           done.
      * done.
      * by apply (take_drop_keys records 0 50).
      * rewrite length_take. lia.
      * by rewrite fmap_take, lookup_take_lt by lia.
      * by rewrite fmap_take, lookup_take_lt by lia.
    + done.
    + done.
    + rewrite Hsplit, !fmap_app in Hnd.
      apply NoDup_app in Hnd as (_ & Hdisj & _).
      intros k Hk Hk'. apply (Hdisj k Hk). apply elem_of_app. by left.
    + intros Hinc. apply (Hinc 49 50); [lia | done | done].
Qed.

Lemma numbered_NoDup : NoDup (numbered 101).*1.
Proof. apply (bool_decide_unpack _). by vm_compute. Qed.

Lemma windowed_writer_flushes_witness :
  ∃ self, appends (numbered 101) (SceneGraphExtractor_init hero) = Return self ∧
          (written self).*1 = ["_out/data/0-49.txt"; "_out/data/50-99.txt"] ∧
          (framedict self).*1 = [100%Z].
Proof.
  destruct (windowed_writer_flushes hero (numbered 101) numbered_NoDup)
    as (_ & _ & _ & H101).
  destruct (H101 eq_refl)
    as (first1 & last1 & first2 & last2 & self & H0 & H49 & H50 & H99 & Hrun & Hw & Hf & _).
  exists self. split; [exact Hrun|]. rewrite Hw, Hf.
  injection H0 as <-. injection H49 as <-. injection H50 as <-. injection H99 as <-.
  split; reflexivity.
Defined.

(** A frame that is appended again right after its window was written
    opens the next window: it is in the file and in the buffer. *)
Lemma duplicate_frame_crosses_flush :
  ∃ self, appends (numbered 50 ++ [(49%Z, blank_record)]) (SceneGraphExtractor_init hero)
          = Return self ∧
          (written self).*1 = ["_out/data/0-49.txt"] ∧
          (framedict self).*1 = [49%Z].
Proof. eexists. split; [vm_compute; reflexivity|]. split; reflexivity. Qed.

(** ** [get_actor_attributes] *)

Lemma int_of_float_truncates f :
  is_finite f = true → int_of_float f = Return (truncate_toward_zero f).
Proof.
  unfold is_finite, int_of_float, truncate_toward_zero, float_num, float_den.
  destruct (Prim2SF f) as [s|s| |s m e]; try done; intros _; f_equal.
  destruct (Z.leb_spec 0 e) as [He|He].
  - rewrite Z.max_l, Z.max_r by lia. rewrite Z.shiftl_mul_pow2 by done.
    simpl (2 ^ 0)%Z. destruct s; by rewrite Z.quot_1_r.
  - rewrite Z.max_r, Z.max_l by lia. rewrite Z.shiftr_div_pow2 by lia.
    simpl (2 ^ 0)%Z. rewrite Z.mul_1_r.
    assert (0 < 2 ^ (- e))%Z by (apply Z.pow_pos_nonneg; lia).
    destruct s.
    + rewrite Z.quot_opp_l by lia. by rewrite Z.quot_div_nonneg by lia.
    + by rewrite Z.quot_div_nonneg by lia.
Qed.

Lemma int_of_float_raises f :
  is_finite f = false → ∃ e, int_of_float f = Raise e.
Proof.
  unfold is_finite, int_of_float.
  destruct (Prim2SF f); try done; eauto.
Qed.

Lemma int_of_float_cases f :
  (is_finite f = true ∧ int_of_float f = Return (truncate_toward_zero f)) ∨
  (is_finite f = false ∧ ∃ e, int_of_float f = Raise e).
Proof.
  destruct (is_finite f) eqn:Hf.
  - left. by rewrite int_of_float_truncates.
  - right. split; [done|]. by apply int_of_float_raises.
Qed.

(** [**] returns or raises. *)
Lemma pow2_cases {libm : Libm} f : (∃ r, pow2 f = Return r) ∨ (∃ e, pow2 f = Raise e).
Proof.
  unfold pow2. destruct (Prim2SF f); eauto.
  destruct (_ =? 1)%float; eauto.
  destruct (pow_2 (abs f)) as [ix []];
    [destruct (abs ix =? infinity)%float|destruct (ix =? 0)%float|]; eauto.
Qed.

Lemma get_actor_attributes_cases {libm : Libm} type_id actor :
  (∃ xx yy zz,
     squares (carla.get_velocity actor) xx yy zz ∧
     Forall (λ f, is_finite f = true) (speed_kmh xx yy zz :: components actor) ∧
     get_actor_attributes type_id actor
     = Return (truncated_attributes type_id actor (speed_kmh xx yy zz))) ∨
  ((∀ xx yy zz,
      squares (carla.get_velocity actor) xx yy zz →
      ¬ Forall (λ f, is_finite f = true) (speed_kmh xx yy zz :: components actor)) ∧
   ∃ e, get_actor_attributes type_id actor = Raise e).
Proof.
  unfold get_actor_attributes, velocity_lambda, norm, components, squares.
  set (v := carla.get_velocity actor).
  set (l := carla.location (carla.get_transform actor)).
  set (r := carla.rotation (carla.get_transform actor)).
  set (a := carla.get_angular_velocity actor).
  destruct (pow2_cases (carla.x v)) as [[xx ->]|[e ->]]; simpl;
    [|right; split; [by intros ??? [? _]|eauto]].
  destruct (pow2_cases (carla.y v)) as [[yy ->]|[e ->]]; simpl;
    [|right; split; [by intros ??? (_ & ? & _)|eauto]].
  destruct (pow2_cases (carla.z v)) as [[zz ->]|[e ->]]; simpl;
    [|right; split; [by intros ??? (_ & _ & ?)|eauto]].
  fold (speed_kmh xx yy zz).
  repeat match goal with
  | |- context [int_of_float ?f] =>
      destruct (int_of_float_cases f) as [[? ->]|[? [? ->]]]; simpl;
      [|right; split;
        [intros ??? ([= <-] & [= <-] & [= <-]); rewrite !Forall_cons; intuition congruence
        |eauto]]
  end.
  left. exists xx, yy, zz. split; [done|]. split; [|done]. by repeat constructor.
Qed.

Lemma float_den_pos f : (0 < float_den f)%Z.
Proof.
  unfold float_den. destruct (Prim2SF f); try done.
  apply Z.pow_pos_nonneg; lia.
Qed.

(** [truncate_toward_zero] drops the fractional part: the result has the
    sign of the value and the integer magnitude just below or at that of
    the value. *)
Lemma truncate_toward_zero_bounds f :
  let n := truncate_toward_zero f in
  (Z.abs n * float_den f <= Z.abs (float_num f) < (Z.abs n + 1) * float_den f)%Z ∧
  (0 <= n * float_num f)%Z.
Proof.
  unfold truncate_toward_zero. pose proof (float_den_pos f) as Hden.
  set (a := float_num f). set (b := float_den f) in *. simpl.
  pose proof (Z.quot_rem' a b) as Hqr.
  destruct (Z.le_gt_cases 0 a) as [Ha|Ha].
  - pose proof (Z.rem_bound_pos a b Ha Hden).
    assert (0 <= Z.quot a b)%Z by (apply Z.quot_pos; lia). nia.
  - pose proof (Z.rem_bound_pos (- a) b ltac:(lia) Hden) as Hr.
    rewrite Z.rem_opp_l in Hr by lia.
    assert (Z.quot a b <= 0)%Z.
    { rewrite <- (Z.opp_involutive a), Z.quot_opp_l by lia.
      assert (0 <= Z.quot (- a) b)%Z by (apply Z.quot_pos; lia). lia. }
    nia.
Qed.



(** ** [SceneGraphExtractor.extract_frame] *)


Section nearby.

Context {libm : Libm}.

Variable location_distance : carla.Vector3D → carla.Vector3D → float.


(** What a returning call of [frame_record] has computed. *)
Lemma frame_record_inv world self record q :
  frame_record location_distance world self = Return (record, q) →
  let t := carla.get_transform (carla.ego_poll world 0) in
  let vehicles := carla.get_actors_filter world "vehicle.*" in
  (if 1 <? length vehicles
   then for_vehicle_in t (carla.handle_id (ego self)) vehicles ∅
   else Return ∅) = Return (actordict record) ∧
  ∃ k1 k2,
    for_nearby_in location_distance world
      (carla.get_actors_filter world "walker.*") ∅ 3 = Return (peddict record, k1) ∧
    for_nearby_in location_distance world
      (carla.get_actors_filter world "traffic.traffic_light") ∅ k1
      = Return (lightdict record, k2) ∧
    for_nearby_in location_distance world
      (carla.get_actors_filter world "traffic.traffic_sign") ∅ k2
      = Return (signdict record, q).
Proof.
  unfold frame_record.
  destruct (carla.get_waypoint world _) as [waypoint|]; simpl; [|done].
  destruct (get_actor_attributes _ _) as [egodict| |]; simpl; try done.
  destruct (if 1 <? _ then _ else _) as [actordict| |]; simpl; try done.
  destruct (for_nearby_in _ _ _ _ 3) as [[peddict k1]| |] eqn:Hped; simpl; try done.
  destruct (for_nearby_in _ _ _ _ k1) as [[lightdict k2]| |] eqn:Hlight; simpl;
    try done.
  destruct (for_nearby_in _ _ _ _ k2) as [[signdict k3]| |] eqn:Hsign; simpl;
    try done.
  intros H. injection H as <- <-. simpl. eauto 6.
Qed.

End nearby.







(** ** The tick loop *)

Lemma ltb_irrefl x : (x <? x)%float = false.
Proof.
  rewrite ltb_spec. unfold SFltb, SFcompare.
  destruct (Prim2SF x) as [[]|[]| |[] m e]; try done.
  - rewrite Z.compare_refl. fold (Pos.compare m m). by rewrite Pos.compare_refl.
  - rewrite Z.compare_refl. fold (Pos.compare m m). by rewrite Pos.compare_refl.
Qed.

Lemma tick_count_app tr tr' : tick_count (tr ++ tr') = tick_count tr + tick_count tr'.
Proof. induction tr as [|[] tr IH]; simpl; lia. Qed.

Section ticks.

Variable tick_once : Node → carla.Timestamp → gmap nat Status → gmap nat Status.

(** The guard of line 253 does its work: a frame that goes through
    [_tick_scenario] twice in a row is ticked at the first call and not at
    the second. *)
Lemma tick_scenario_duplicate_frame timestamp self self1 :
  _running self = true →
  (_timestamp_last_run self <? carla.elapsed_seconds timestamp)%float = true →
  _tick_scenario tick_once timestamp self = Return self1 →
  tick_count (trace self1) = S (tick_count (trace self)) ∧
  ∃ self2, _tick_scenario tick_once timestamp self1 = Return self2 ∧
           tick_count (trace self2) = tick_count (trace self1).
Proof.
  intros Hrun Hlt. unfold _tick_scenario at 1. rewrite Hlt, Hrun. simpl.
  destruct (scenario self) as [sc|]; [|done]. simpl.
  intros H.
  assert (Hlast : _timestamp_last_run self1 = carla.elapsed_seconds timestamp).
  { injection H as <-.
    by destruct (_agent self) eqn:Hagent; simpl; rewrite ?Hagent; simpl. }
  assert (Hcount : tick_count (trace self1) = S (tick_count (trace self))).
  { injection H as <-.
    destruct (_agent self) eqn:Hagent; simpl; rewrite ?Hagent; simpl;
      rewrite ?tick_count_app; simpl; lia. }
  split; [done|]. clear H Hcount.
  unfold _tick_scenario. rewrite Hlast, ltb_irrefl. simpl.
  eexists. split; [done|]. destruct (_agent self1); simpl; [|done].
  rewrite tick_count_app. simpl. lia.
Qed.

End ticks.

(** C4.  The claim asks for one tick and at most one extraction when a
    frame is presented twice in a row.  The guard of [_tick_scenario] gives
    the single tick, but [extract_frame] is called outside that guard: frame
    1 presented twice is extracted twice. *)
Theorem duplicate_frame_extracted_twice :
  ∃ self,
    run_scenario (libm := correctly_rounded) euclidean (ends_at 0.1)
      [Some (two_vehicle_world, frame_one); Some (two_vehicle_world, frame_one);
       Some (two_vehicle_world, frame_two)] loaded
    = Return self ∧
    trace self = [TickOnce frame_one; ExtractFrame 1; ExtractFrame 1;
                  TickOnce frame_two; ExtractFrame 2].
Proof. eexists. split; [vm_compute; reflexivity | reflexivity]. Qed.

(** * Further properties *)

(** ** The tree traversal *)

(** X1.  On a tree whose nodes have distinct identities
    [_extract_nodes_from_tree] returns: the loops end.  The list it returns
    is a rearrangement of the nodes without children, none lost and none
    repeated, unless these come down to one childless [Parallel], for which
    it returns the empty list. *)
Theorem extract_nodes_returns_frontier root :
  NoDup (node_id <$> nodes root) →
  ∃ l, _extract_nodes_from_tree (Some root) = Return l ∧
       (lone_Parallel (leaves root) → l = []) ∧
       (¬ lone_Parallel (leaves root) → l ≡ₚ leaves root).
Proof.
  intros Hnd.
  destruct (extract_nodes_from_tree_spec root Hnd) as (l & Hrun & Hperm & _).
  exists (drop_lone_Parallel l). split; [done|]. split.
  - intros (n & Hn & Hp). rewrite Hn in Hperm.
    apply Permutation_singleton_r in Hperm as ->. simpl. by rewrite Hp.
  - intros Hnot. rewrite <- Hperm. destruct l as [|n [|]]; try done. simpl.
    destruct (is_Parallel n) eqn:Hp; [|done].
    destruct Hnot. exists n. split; [|done].
    symmetry. by apply Permutation_singleton_l.
Qed.

Lemma extract_nodes_returns_frontier_witness :
  ∃ l, _extract_nodes_from_tree (Some (scenario_tree (failing_then_acceptable false)))
       = Return l ∧
       l ≡ₚ leaves (scenario_tree (failing_then_acceptable false)).
Proof.
  destruct (extract_nodes_returns_frontier
              (scenario_tree (failing_then_acceptable false))) as (l & Hrun & _ & Hperm).
  { apply (bool_decide_unpack _). exact I. }
  exists l. split; [exact Hrun|]. apply Hperm.
  intros (n & Hn & _). discriminate Hn.
Defined.

(** A run of the [for] loop over nodes without children changes nothing. *)
Lemma for_node_in_childless fuel : ∀ i l more,
  Forall (λ n, has_children n = false) l →
  length l - i < fuel →
  for_node_in fuel i l more = Some (l, more).
Proof.
  induction fuel as [|fuel IH]; intros i l more Hall Hfuel; [lia|]. simpl.
  destruct (l !! i) as [node|] eqn:Hi; [|done].
  assert (has_children node = false) as ->.
  { eapply Forall_forall in Hall; [done|]. by eapply list_elem_of_lookup_2. }
  apply IH; [done|]. apply lookup_lt_Some in Hi. lia.
Qed.

Lemma while_more_nodes_exist_again fuel inner l l' :
  for_node_in inner 0 l false = Some (l', true) →
  while_more_nodes_exist (S fuel) inner l = while_more_nodes_exist fuel inner l'.
Proof. intros H. simpl. by rewrite H. Qed.

Lemma while_more_nodes_exist_done fuel inner l l' :
  for_node_in inner 0 l false = Some (l', false) →
  while_more_nodes_exist (S fuel) inner l = Some l'.
Proof. intros H. simpl. by rewrite H. Qed.

(** The traversal of a group of childless nodes gives them in order. *)
Lemma extract_flat_group i k ch :
  Forall (λ n, has_children n = false ∧ is_Parallel n = false) ch →
  _extract_nodes_from_tree (Some (Comp i k ch))
  = Return (if is_Parallel (Comp i k ch) then ch
            else match ch with [] => [Comp i k ch] | _ => ch end).
Proof.
  intros Hall.
  assert (Hch : Forall (λ n, has_children n = false) ch).
  { eapply Forall_impl; [done|]. by intros ? [? _]. }
  assert (Hsize : tree_size (Comp i k ch) = S (length ch)).
  { unfold tree_size. simpl. f_equal. clear Hall.
    induction Hch as [|n ch Hn _ IH]; [done|].
    rewrite bind_cons, length_app, IH. destruct n as [|? ? [|]]; done. }
  unfold _extract_nodes_from_tree. rewrite Hsize.
  destruct ch as [|c ch].
  - simpl. by destruct k.
  - assert (Hfirst : ∀ f, length (c :: ch) ≤ f →
              for_node_in (S f) 0 [Comp i k (c :: ch)] false = Some (c :: ch, true)).
    { intros f Hf. cbn [for_node_in lookup list_lookup].
      replace (has_children (Comp i k (c :: ch))) with true by done.
      cbn [list_remove node_id children]. rewrite Nat.eqb_refl. cbn [app].
      apply for_node_in_childless; [done|]. simpl in *. lia. }
    rewrite (while_more_nodes_exist_again _ _ _ (c :: ch))
      by (apply (Hfirst (S (length (c :: ch)))); lia).
    rewrite (while_more_nodes_exist_done _ _ _ (c :: ch))
      by (apply for_node_in_childless; [done | simpl; lia]).
    apply Forall_cons in Hall as [[_ Hc] _].
    destruct ch; [by rewrite Hc; destruct k | by destruct k].
Qed.

(** X2.  The criteria given to the constructor as a list come back from
    [get_criteria] in the order given, each with [terminate_on_failure] set
    to the constructor's argument and its other attributes untouched. *)
Theorem get_criteria_after_init behavior (criteria : list (nat * Criterion))
    name timeout terminate_on_failure alloc :
  ∃ sc,
    Scenario_init behavior (Some (CriteriaList (criterion_node <$> criteria)))
      name timeout terminate_on_failure alloc = Return sc ∧
    get_criteria sc = Return (with_terminate_on_failure terminate_on_failure <$> criteria).
Proof.
  eexists. split; [reflexivity|]. unfold get_criteria. cbn [criteria_tree].
  rewrite extract_flat_group.
  - rewrite <- list_fmap_compose. simpl.
    destruct criteria; reflexivity.
  - rewrite <- list_fmap_compose. apply Forall_fmap, Forall_true. by intros [].
Qed.

(** ** [Scenario.terminate], once more *)

(** X3.  [terminate] is idempotent: a second call after a call that
    returned gives the same statuses. *)
Theorem terminate_idempotent sc σ σ' :
  terminate sc σ = Return σ' → terminate sc σ' = Return σ'.
Proof.
  unfold terminate.
  destruct (_extract_nodes_from_tree (Some (scenario_tree sc))) as [l| |];
    simpl; try done.
  intros H. injection H as <-. f_equal. apply map_eq. intros i.
  rewrite !foldl_node_terminate_lookup. by destruct (decide _).
Qed.

Lemma terminate_idempotent_witness :
  ∃ σ', terminate (failing_then_acceptable false) all_running = Return σ' ∧
        terminate (failing_then_acceptable false) σ' = Return σ'.
Proof.
  eexists. split; [vm_compute; reflexivity|].
  apply (terminate_idempotent (failing_then_acceptable false) all_running).
  vm_compute. reflexivity.
Defined.

(** X4.  [terminate] changes the status of no object outside the scenario
    tree. *)
Theorem terminate_outside_tree sc σ σ' i :
  NoDup (node_id <$> nodes (scenario_tree sc)) →
  terminate sc σ = Return σ' →
  i ∉ node_id <$> nodes (scenario_tree sc) →
  σ' !! i = σ !! i.
Proof.
  intros Hnd Hrun Hi. unfold terminate in Hrun.
  destruct (extract_nodes_from_tree_spec _ Hnd) as (l & Hex & Hperm & _).
  rewrite Hex in Hrun. simpl in Hrun. injection Hrun as <-.
  rewrite foldl_node_terminate_lookup.
  destruct (decide _) as [Hin|]; [|done]. destruct Hi.
  apply list_elem_of_fmap in Hin as (n & -> & Hn). apply list_elem_of_fmap_2.
  assert (Hl : n ∈ l).
  { destruct l as [|m [|]]; try done. simpl in Hn.
    destruct (is_Parallel m); [by apply elem_of_nil in Hn | done]. }
  rewrite Hperm in Hl. by apply leaves_in_nodes in Hl as [? _].
Qed.

Lemma terminate_outside_tree_witness :
  ∃ σ', terminate (failing_then_acceptable false) (<[7 := SUCCESS]> all_running)
        = Return σ' ∧
        σ' !! 7 = Some SUCCESS.
Proof.
  eexists. split; [vm_compute; reflexivity|].
  rewrite (terminate_outside_tree (failing_then_acceptable false)
             (<[7 := SUCCESS]> all_running) _ 7 failing_then_acceptable_NoDup).
  - reflexivity.
  - vm_compute. reflexivity.
  - apply (bool_decide_unpack _). exact I.
Defined.

(** ** [analyze_scenario], once more *)

Lemma for_criterion_in_criteria (criteria : list (nat * Criterion)) : ∀ st,
  for_criterion_in (criterion_node <$> criteria) st
  = Return (foldl scan_criterion st criteria.*2).
Proof. induction criteria as [|[i c] criteria IH]; intros st; simpl; [done|]. apply IH. Qed.

Lemma foldl_scan_criterion_flag (cs : list Criterion) : ∀ st,
  (foldl scan_criterion st cs).1 = st.1 || existsb failed cs.
Proof.
  induction cs as [|c cs IH]; intros st; simpl; [by rewrite orb_false_r|].
  by rewrite IH, scan_criterion_flag, orb_assoc.
Qed.

Lemma scan_criterion_not_failed st c :
  failed c = false →
  (scan_criterion st c).2 = if accepted c then "ACCEPTABLE" else st.2.
Proof.
  destruct st as [failure result]. unfold scan_criterion, failed, accepted.
  intros ->. by destruct (String.eqb _ _).
Qed.

Lemma foldl_scan_criterion_not_failed (cs : list Criterion) : ∀ st,
  existsb failed cs = false →
  (foldl scan_criterion st cs).2 = if existsb accepted cs then "ACCEPTABLE" else st.2.
Proof.
  induction cs as [|c cs IH]; intros st Hcs; simpl in *; [done|].
  apply orb_false_iff in Hcs as [Hc Hcs].
  rewrite IH, scan_criterion_not_failed by done.
  by destruct (accepted c), (existsb accepted cs).
Qed.

Lemma foldl_scan_criterion_failed (cs : list Criterion) : ∀ st,
  existsb failed cs = true →
  (foldl scan_criterion st cs).2 = "FAILURE" ∨
  (foldl scan_criterion st cs).2 = "ACCEPTABLE".
Proof.
  induction cs as [|c cs IH]; intros st Hcs; simpl in *; [done|].
  destruct (existsb failed cs) eqn:Hrest; [by apply IH|].
  rewrite orb_false_r in Hcs.
  rewrite foldl_scan_criterion_not_failed by done.
  destruct (existsb accepted cs); [by right|]. left.
  destruct st as [failure result]. unfold scan_criterion, failed in *. by rewrite Hcs.
Qed.

(** X5.  When every node [get_criteria] gives is a criterion,
    [analyze_scenario] writes a report and returns [True] exactly when some
    criterion is not optional and has a status other than "SUCCESS" and
    "ACCEPTABLE", or the [TimeOut] node has fired. *)
Theorem analyze_scenario_returned sc given criteria fired :
  test_criteria sc = Some given →
  get_criteria sc = Return (criterion_node <$> criteria) →
  node_timeout (timeout_node sc) = Return fired →
  ∃ verdict,
    analyze_scenario sc
    = Return (mkAnalysis (Some verdict) (existsb failed criteria.*2 || fired)).
Proof.
  intros Hgiven Hcrit Hfired. unfold analyze_scenario.
  rewrite Hgiven, Hcrit. simpl. rewrite for_criterion_in_criteria. simpl.
  destruct (foldl scan_criterion (false, "SUCCESS") criteria.*2)
    as [failure result] eqn:Hscan.
  pose proof (foldl_scan_criterion_flag criteria.*2 (false, "SUCCESS")) as Hflag.
  rewrite Hscan in Hflag. simpl in Hflag. subst failure. rewrite Hfired. simpl.
  destruct (existsb failed criteria.*2), fired; simpl; eauto.
Qed.

Lemma analyze_scenario_returned_witness :
  ∃ verdict,
    analyze_scenario (failing_then_acceptable true)
    = Return (mkAnalysis (Some verdict) true).
Proof.
  exact (analyze_scenario_returned (failing_then_acceptable true)
           (CriteriaList [failing; acceptable])
           [(0, mkCriterion false "FAILURE" false); (1, mkCriterion false "ACCEPTABLE" false)]
           true eq_refl eq_refl eq_refl).
Defined.

(** X6.  When no criterion failed, the verdict is "TIMEOUT" if the
    [TimeOut] node has fired, else "ACCEPTABLE" if some criterion has that
    status, else "SUCCESS"; the call returns [True] only for the timeout. *)
Theorem analyze_scenario_without_failure sc given criteria fired :
  test_criteria sc = Some given →
  get_criteria sc = Return (criterion_node <$> criteria) →
  node_timeout (timeout_node sc) = Return fired →
  existsb failed criteria.*2 = false →
  analyze_scenario sc
  = Return (mkAnalysis
              (Some (if fired then "TIMEOUT"
                     else if existsb accepted criteria.*2 then "ACCEPTABLE"
                          else "SUCCESS"))
              fired).
Proof.
  intros Hgiven Hcrit Hfired Hnone. unfold analyze_scenario.
  rewrite Hgiven, Hcrit. simpl. rewrite for_criterion_in_criteria. simpl.
  destruct (foldl scan_criterion (false, "SUCCESS") criteria.*2)
    as [failure result] eqn:Hscan.
  pose proof (foldl_scan_criterion_flag criteria.*2 (false, "SUCCESS")) as Hflag.
  pose proof (foldl_scan_criterion_not_failed criteria.*2 (false, "SUCCESS") Hnone)
    as Hresult.
  rewrite Hscan in Hflag, Hresult. simpl in Hflag, Hresult.
  rewrite Hnone in Hflag. subst failure result. rewrite Hfired. simpl.
  by destruct fired.
Qed.

(** X7.  When some criterion failed, the call returns [True] and the
    verdict is neither "SUCCESS" nor "TIMEOUT", whether the [TimeOut] node
    has fired or not. *)
Theorem analyze_scenario_with_failure sc given criteria fired :
  test_criteria sc = Some given →
  get_criteria sc = Return (criterion_node <$> criteria) →
  node_timeout (timeout_node sc) = Return fired →
  existsb failed criteria.*2 = true →
  ∃ verdict,
    analyze_scenario sc = Return (mkAnalysis (Some verdict) true) ∧
    (verdict = "FAILURE" ∨ verdict = "ACCEPTABLE").
Proof.
  intros Hgiven Hcrit Hfired Hsome. unfold analyze_scenario.
  rewrite Hgiven, Hcrit. simpl. rewrite for_criterion_in_criteria. simpl.
  destruct (foldl scan_criterion (false, "SUCCESS") criteria.*2)
    as [failure result] eqn:Hscan.
  pose proof (foldl_scan_criterion_flag criteria.*2 (false, "SUCCESS")) as Hflag.
  pose proof (foldl_scan_criterion_failed criteria.*2 (false, "SUCCESS") Hsome)
    as Hresult.
  rewrite Hscan in Hflag, Hresult. simpl in Hflag, Hresult.
  rewrite Hsome in Hflag. subst failure. rewrite Hfired. simpl.
  rewrite andb_false_r. simpl. eauto.
Qed.

(** X8.  A node in the list of [get_criteria] that is no criterion makes
    [analyze_scenario] raise [AttributeError]. *)
Theorem analyze_scenario_not_a_criterion sc given l n :
  test_criteria sc = Some given →
  get_criteria sc = Return l →
  n ∈ l →
  as_criterion n = Raise AttributeError →
  analyze_scenario sc = Raise AttributeError.
Proof.
  intros Hgiven Hcrit Hn Hno. unfold analyze_scenario.
  rewrite Hgiven, Hcrit. simpl.
  assert (Hscan : ∀ st, for_criterion_in l st = Raise AttributeError).
  { clear Hcrit. induction l as [|m l IH]; intros st; [by apply elem_of_nil in Hn|].
    simpl. destruct m as [i [| |c]|]; try done.
    apply elem_of_cons in Hn as [->|Hn]; [done|]. simpl. by apply IH. }
  by rewrite Hscan.
Qed.

Lemma analyze_scenario_without_failure_witness :
  ∃ sc, Scenario_init None
          (Some (CriteriaList [Leaf 0 (Crit (mkCriterion false "SUCCESS" false)); acceptable]))
          "scenario" 60 false 2 = Return sc ∧
        analyze_scenario sc = Return (mkAnalysis (Some "ACCEPTABLE") false).
Proof.
  eexists. split; [reflexivity|].
  apply (analyze_scenario_without_failure _
           (CriteriaList [Leaf 0 (Crit (mkCriterion false "SUCCESS" false)); acceptable])
           [(0, mkCriterion false "SUCCESS" false); (1, mkCriterion false "ACCEPTABLE" false)]
           false); reflexivity.
Defined.

Lemma analyze_scenario_with_failure_witness :
  ∃ verdict,
    analyze_scenario (failing_then_acceptable true)
    = Return (mkAnalysis (Some verdict) true) ∧
    (verdict = "FAILURE" ∨ verdict = "ACCEPTABLE").
Proof.
  exact (analyze_scenario_with_failure (failing_then_acceptable true)
           (CriteriaList [failing; acceptable])
           [(0, mkCriterion false "FAILURE" false); (1, mkCriterion false "ACCEPTABLE" false)]
           true eq_refl eq_refl eq_refl eq_refl).
Defined.

Lemma analyze_scenario_not_a_criterion_witness :
  analyze_scenario with_childless_group = Raise AttributeError.
Proof.
  apply (analyze_scenario_not_a_criterion with_childless_group
           (CriteriaTree (Comp 2 Parallel [failing; Comp 5 Parallel []]))
           [failing; Comp 5 Parallel []] (Comp 5 Parallel [])).
  - reflexivity.
  - reflexivity.
  - right. left.
  - reflexivity.
Defined.

(** ** The windowed writer, once more *)

Lemma appends_run records : ∀ self,
  length (framedict self) < 50 →
  NoDup ((framedict self).*1 ++ records.*1) →
  ∃ self' files,
    appends records self = Return self' ∧
    written self' = written self ++ files ∧
    concat files.*2 ++ framedict self' = framedict self ++ records ∧
    Forall (window_of (output_dir self)) files ∧
    length (framedict self') < 50 ∧
    output_dir self' = output_dir self.
Proof.
  induction records as [|[k v] records IH]; intros self Hlen Hnd.
  - exists self, []. simpl. rewrite !app_nil_r. by repeat split.
  - assert (Hfresh : k ∉ (framedict self).*1).
    { apply NoDup_app in Hnd as (_ & Hdisj & _). intros Hk.
      apply (Hdisj k Hk). left. }
    assert (Hnd' : NoDup (((framedict self ++ [(k, v)]).*1) ++ records.*1)).
    { by rewrite fmap_app, <- (assoc_L (++)). }
    destruct (decide (S (length (framedict self)) < 50)) as [Hbelow|Hfull].
    + destruct (IH (set_framedict (framedict self ++ [(k, v)]) self))
        as (self' & files & Hrun & Hw & Hcat & Hfiles & Hlen' & Hdir).
      { simpl. rewrite length_app. simpl. lia. }
      { done. }
      exists self', files.
      split; [simpl; by rewrite append_below by done|].
      split; [done|]. split; [|done].
      rewrite Hcat. simpl. by rewrite <- (assoc_L (++)).
    + assert (Hlen49 : length (framedict self) = 49) by lia.
      destruct (lookup_lt_is_Some_2 (framedict self ++ [(k, v)]).*1 0) as [first Hfirst].
      { rewrite length_fmap, length_app. simpl. lia. }
      set (file := (window_file (output_dir self) first k, framedict self ++ [(k, v)])).
      destruct (IH (set_framedict []
                      (write_file file.1 (set_framedict (framedict self ++ [(k, v)]) self))))
        as (self' & files & Hrun & Hw & Hcat & Hfiles & Hlen' & Hdir).
      { simpl. lia. }
      { simpl. apply NoDup_app in Hnd' as (_ & _ & ?). done. }
      exists self', (file :: files).
      split; [simpl; by rewrite (append_full _ _ _ first) by done|].
      split.
      { rewrite Hw. simpl. by rewrite <- (assoc_L (++)). }
      split.
      { rewrite fmap_cons. cbn [concat snd file]. simpl in Hcat.
        rewrite <- !(assoc_L (++)). by rewrite Hcat. }
      split; [|done]. constructor; [|done].
      split; [simpl; rewrite length_app; simpl; lia|].
      exists first, k. split; [done|]. split; [|done]. simpl.
      rewrite fmap_app, lookup_app_r by (rewrite length_fmap; lia).
      by rewrite length_fmap, Hlen49.
Qed.

(** X9.  Appending records whose frame ids are new, to a buffer below 50,
    loses and reorders nothing: the files written by the run, one after the
    other, followed by the buffer are the old buffer followed by the
    records.  Every file holds 50 records and is named by its first and
    last frame id, and the buffer ends below 50; so
    the run writes one file for every 50 records. *)
Theorem appends_lossless records self :
  length (framedict self) < 50 →
  NoDup ((framedict self).*1 ++ records.*1) →
  ∃ self' files,
    appends records self = Return self' ∧
    written self' = written self ++ files ∧
    concat files.*2 ++ framedict self' = framedict self ++ records ∧
    Forall (window_of (output_dir self)) files ∧
    length (framedict self') < 50 ∧
    length files = (length (framedict self) + length records) / 50.
Proof.
  intros Hlen Hnd.
  destruct (appends_run records self Hlen Hnd)
    as (self' & files & Hrun & Hw & Hcat & Hfiles & Hlen' & _).
  exists self', files. do 5 (split; [done|]).
  assert (Hsum : length (concat files.*2) = 50 * length files).
  { clear Hw Hcat. induction Hfiles as [|file files [Hfile _] _ IH]; [done|].
    rewrite fmap_cons. cbn [concat]. rewrite length_app, IH, Hfile. simpl. lia. }
  apply (f_equal length) in Hcat. rewrite !length_app, Hsum in Hcat.
  apply (Nat.div_unique _ 50 _ (length (framedict self'))); lia.
Qed.

Lemma appends_lossless_witness :
  ∃ self' files,
    appends (numbered 101) (SceneGraphExtractor_init hero) = Return self' ∧
    written self' = files ∧
    concat files.*2 ++ framedict self' = numbered 101.
Proof.
  destruct (appends_lossless (numbered 101) (SceneGraphExtractor_init hero))
    as (self' & files & Hrun & Hw & Hcat & _).
  - simpl. lia.
  - exact numbered_NoDup.
  - exists self', files. split; [exact Hrun|]. split; [exact Hw | exact Hcat].
Defined.

Lemma dict_set_present {V} k (v : V) d :
  k ∈ d.*1 →
  (dict_set k v d).*1 = d.*1 ∧
  (k, v) ∈ dict_set k v d ∧
  ∀ k' v', k' ≠ k → (k', v') ∈ dict_set k v d ↔ (k', v') ∈ d.
Proof.
  induction d as [|[k0 v0] d IH]; intros Hk; [by apply elem_of_nil in Hk|].
  cbn [dict_set]. destruct (Z.eqb_spec k0 k) as [->|Hne].
  - split; [done|]. split; [left|]. intros k' v' Hk'. rewrite !elem_of_cons.
    split; intros [[=]|?]; auto; congruence.
  - rewrite fmap_cons in Hk. apply elem_of_cons in Hk as [?|Hk]; [simpl in *; congruence|].
    destruct (IH Hk) as (Hkeys & Hin & Hother).
    split; [by rewrite !fmap_cons, Hkeys|]. split; [by right|].
    intros k' v' Hk'. rewrite !elem_of_cons, Hother by done. tauto.
Qed.

Lemma dict_set_elem {V} k (v : V) d : (k, v) ∈ dict_set k v d.
Proof.
  induction d as [|[k0 v0] d IH]; simpl; [left|].
  destruct (Z.eqb k0 k); [left | by right].
Qed.

(** X10.  A frame id that is already in the buffer gets its record
    replaced where it stands: the frame ids of the buffer and their order
    stay, the other records stay, and nothing is written. *)
Theorem append_same_frame frame record self :
  length (framedict self) < 50 →
  frame ∈ (framedict self).*1 →
  ∃ d, append frame record self = Return (set_framedict d self) ∧
       d.*1 = (framedict self).*1 ∧
       (frame, record) ∈ d ∧
       ∀ k v, k ≠ frame → (k, v) ∈ d ↔ (k, v) ∈ framedict self.
Proof.
  intros Hlen Hin.
  destruct (dict_set_present frame record (framedict self) Hin) as (Hkeys & Hrec & Hother).
  exists (dict_set frame record (framedict self)). split; [|done].
  unfold append, export_data. cbn [framedict set_framedict].
  assert (Hsame : length (dict_set frame record (framedict self))
                  = length (framedict self)).
  { by rewrite <- (length_fmap fst), Hkeys, length_fmap. }
  rewrite Hsame. by destruct (Nat.eqb_spec (length (framedict self)) 50); [lia|].
Qed.

Lemma append_same_frame_witness :
  ∃ d, append 3 blank_record (set_framedict (numbered 5) (SceneGraphExtractor_init hero))
       = Return (set_framedict d (set_framedict (numbered 5) (SceneGraphExtractor_init hero))) ∧
       d.*1 = [0; 1; 2; 3; 4]%Z.
Proof.
  destruct (append_same_frame 3 blank_record
              (set_framedict (numbered 5) (SceneGraphExtractor_init hero)))
    as (d & Hrun & Hkeys & _).
  - simpl. lia.
  - simpl. set_solver.
  - exists d. split; [exact Hrun | exact Hkeys].
Defined.

(** X11.  A call of [extract_frame] that returns has stored the record of
    its frame: it is in the buffer and no file was written, or the buffer
    is empty and the record is in the one file the call wrote. *)
Theorem extract_frame_stores {libm : Libm} location_distance world frame self self' q :
  extract_frame location_distance world frame self = Return (self', q) →
  ∃ record,
    frame_record location_distance world self = Return (record, q) ∧
    (((frame, record) ∈ framedict self' ∧ written self' = written self) ∨
     (framedict self' = [] ∧
      ∃ file content, written self' = written self ++ [(file, content)] ∧
                      (frame, record) ∈ content)).
Proof.
  unfold extract_frame.
  destruct (frame_record location_distance world self) as [[record k]| |];
    simpl; try done.
  unfold append, export_data. cbn [framedict set_framedict].
  pose proof (dict_set_elem frame record (framedict self)) as Hin.
  destruct (length (dict_set frame record (framedict self)) =? 50).
  - destruct (_ !! 0) as [first|]; simpl; [|done].
    destruct (_ !! _) as [last|]; simpl; [|done].
    intros H. injection H as <- <-. exists record. split; [done|]. right.
    split; [done|]. simpl. eauto.
  - simpl. intros H. injection H as <- <-. exists record. split; [done|]. by left.
Qed.

Lemma extract_frame_stores_witness :
  ∃ self' q record,
    extract_frame (libm := correctly_rounded) euclidean two_vehicle_world 7 (SceneGraphExtractor_init hero)
    = Return (self', q) ∧
    (7%Z, record) ∈ framedict self'.
Proof.
  eexists _, _.
  destruct (extract_frame_stores (libm := correctly_rounded) euclidean two_vehicle_world 7
              (SceneGraphExtractor_init hero) _ _ eq_refl)
    as (record & _ & [[Hin _]|[Hempty _]]).
  - exists record. split; [reflexivity | exact Hin].
  - discriminate Hempty.
Defined.

(** ** The record of a frame, once more *)

Lemma for_vehicle_in_values {libm : Libm} t ego_id vehicles : ∀ dict dict',
  for_vehicle_in t ego_id vehicles dict = Return dict' →
  ∀ key a, dict' !! key = Some a →
    dict !! key = Some a ∨
    ∃ v, v ∈ vehicles ∧ carla.id v = key ∧
         get_actor_attributes (carla.type_id v) (carla.state v) = Return a.
Proof.
  induction vehicles as [|v vehicles IH]; intros dict dict' Hrun key a Ha;
    simpl in Hrun.
  - injection Hrun as <-. by left.
  - assert (Hrest : ∀ d, for_vehicle_in t ego_id vehicles d = Return dict' →
              d !! key = Some a ∨
              ∃ v', v' ∈ v :: vehicles ∧ carla.id v' = key ∧
                    get_actor_attributes (carla.type_id v') (carla.state v') = Return a).
    { intros d Hd. destruct (IH _ _ Hd key a Ha) as [?|(v' & Hin & ?)]; [by left|].
      right. exists v'. split; [by right|done]. }
    destruct (negb _); [|by apply Hrest].
    destruct (distance _ _) as [d| |]; simpl in Hrun; try done.
    destruct (d <? 100)%float; [|by apply Hrest].
    destruct (get_actor_attributes _ _) as [attributes| |] eqn:Hattr;
      simpl in Hrun; try done.
    destruct (Hrest _ Hrun) as [Hd|?]; [|by right].
    apply lookup_insert_Some in Hd as [[<- <-]|[_ ?]]; [|by left].
    right. exists v. split; [left|done].
Qed.

Lemma for_nearby_in_values {libm : Libm} location_distance world candidates :
  ∀ dict k dict' k',
  for_nearby_in location_distance world candidates dict k = Return (dict', k') →
  ∀ key a, dict' !! key = Some a →
    dict !! key = Some a ∨
    ∃ p, p ∈ candidates ∧ carla.id p = key ∧
         get_actor_attributes (carla.type_id p) (carla.state p) = Return a.
Proof.
  induction candidates as [|p candidates IH]; intros dict k dict' k' Hrun key a Ha;
    simpl in Hrun.
  - injection Hrun as <- <-. by left.
  - assert (Hrest : ∀ d, for_nearby_in location_distance world candidates d (S k)
                         = Return (dict', k') →
              d !! key = Some a ∨
              ∃ p', p' ∈ p :: candidates ∧ carla.id p' = key ∧
                    get_actor_attributes (carla.type_id p') (carla.state p') = Return a).
    { intros d Hd. destruct (IH _ _ _ _ Hd key a Ha) as [?|(p' & Hin & ?)]; [by left|].
      right. exists p'. split; [by right|done]. }
    destruct (_ <? 100)%float; [|by apply Hrest].
    destruct (get_actor_attributes _ _) as [attributes| |] eqn:Hattr;
      simpl in Hrun; try done.
    destruct (Hrest _ Hrun) as [Hd|?]; [|by right].
    apply lookup_insert_Some in Hd as [[<- <-]|[_ ?]]; [|by left].
    right. exists p. split; [left|done].
Qed.

(** X12.  Every entry of the four maps of a frame record is what
    [get_actor_attributes] gives for an actor of that id in the matching
    list of the world; the entry under "ego" is what it gives for the
    monitored handle. *)
Theorem frame_record_values {libm : Libm} location_distance world self record q :
  frame_record location_distance world self = Return (record, q) →
  let listed pattern (dict : gmap Z ActorAttributes) :=
    ∀ key a, dict !! key = Some a →
      ∃ p, p ∈ carla.get_actors_filter world pattern ∧ carla.id p = key ∧
           get_actor_attributes (carla.type_id p) (carla.state p) = Return a in
  listed "vehicle.*" (actordict record) ∧
  listed "walker.*" (peddict record) ∧
  listed "traffic.traffic_light" (lightdict record) ∧
  listed "traffic.traffic_sign" (signdict record) ∧
  get_actor_attributes (carla.handle_type_id (ego self)) (carla.ego_poll world 2)
  = Return (egodict record).
Proof.
  intros Hrun listed.
  pose proof (frame_record_inv _ _ _ _ _ Hrun) as (Hveh & k1 & k2 & Hped & Hlight & Hsign).
  assert (Hempty : ∀ key a, (∅ : gmap Z ActorAttributes) !! key = Some a → False).
  { intros key a. by rewrite lookup_empty. }
  split; [|split; [|split; [|split]]].
  - intros key a Ha. destruct (1 <? _).
    + destruct (for_vehicle_in_values _ _ _ _ _ Hveh key a Ha) as [?|?]; [|done].
      by destruct (Hempty key a).
    + injection Hveh as Heq. rewrite <- Heq in Ha. by destruct (Hempty key a).
  - intros key a Ha.
    destruct (for_nearby_in_values _ _ _ _ _ _ _ Hped key a Ha) as [?|?]; [|done].
    by destruct (Hempty key a).
  - intros key a Ha.
    destruct (for_nearby_in_values _ _ _ _ _ _ _ Hlight key a Ha) as [?|?]; [|done].
    by destruct (Hempty key a).
  - intros key a Ha.
    destruct (for_nearby_in_values _ _ _ _ _ _ _ Hsign key a Ha) as [?|?]; [|done].
    by destruct (Hempty key a).
  - unfold frame_record in Hrun.
    destruct (carla.get_waypoint world _); simpl in Hrun; [|done].
    destruct (get_actor_attributes _ _) as [egodict| |]; simpl in Hrun; try done.
    destruct (if 1 <? _ then _ else _); simpl in Hrun; try done.
    destruct (for_nearby_in _ _ _ _ 3) as [[? ?]| |]; simpl in Hrun; try done.
    destruct (for_nearby_in _ _ _ _ _) as [[? ?]| |]; simpl in Hrun; try done.
    destruct (for_nearby_in _ _ _ _ _) as [[? ?]| |]; simpl in Hrun; try done.
    by injection Hrun as <- <-.
Qed.

Lemma frame_record_values_witness :
  ∃ record q a,
    frame_record (libm := correctly_rounded) euclidean two_vehicle_world
      (SceneGraphExtractor_init hero)
    = Return (record, q) ∧
    actordict record !! 7%Z = Some a ∧
    get_actor_attributes (libm := correctly_rounded) "vehicle.audi.tt"
      (at_rest (carla.mkVector3D 3 0 0)) = Return a.
Proof.
  eexists _, _.
  destruct (frame_record_values (libm := correctly_rounded) euclidean two_vehicle_world
              (SceneGraphExtractor_init hero) _ _ eq_refl) as (Hveh & _).
  eexists. split; [reflexivity|]. split; reflexivity.
Defined.

(** ** The tick loop, once more *)

Lemma ticked_app tr tr' : ticked (tr ++ tr') = ticked tr ++ ticked tr'.
Proof. induction tr as [|[] tr IH]; simpl; by rewrite ?IH. Qed.

Lemma later_each_time_snoc l b :
  later_each_time l →
  (∀ a, last l = Some a →
        (carla.elapsed_seconds a <? carla.elapsed_seconds b)%float = true) →
  later_each_time (l ++ [b]).
Proof.
  induction l as [|a l IH]; intros Hl Hlast; [done|].
  destruct Hl as [Hab Hl]. destruct l as [|a' l].
  - simpl. split; [|done]. by apply Hlast.
  - split; [done|]. apply IH; [done|]. intros a0 Ha0. by apply Hlast.
Qed.

Section loop.

Context {libm : Libm}.

Variable location_distance : carla.Vector3D → carla.Vector3D → float.
Variable tick_once : Node → carla.Timestamp → gmap nat Status → gmap nat Status.

(** What [_tick_scenario] leaves alone, and what it returns. *)
Lemma tick_scenario_keeps timestamp self self1 :
  _tick_scenario tick_once timestamp self = Return self1 →
  scenario self1 = scenario self ∧ _agent self1 = _agent self ∧ se self1 = se self.
Proof.
  unfold _tick_scenario.
  destruct (_ && _); simpl.
  - destruct (scenario self) as [sc|] eqn:Hsc; simpl; [|done].
    intros H. injection H as <-.
    by destruct (_agent self) eqn:Hagent; simpl; rewrite ?Hagent; simpl.
  - intros H. injection H as <-.
    by destruct (_agent self) eqn:Hagent; simpl; rewrite ?Hagent.
Qed.

Lemma tick_scenario_returns timestamp self sc :
  scenario self = Some sc →
  ∃ self1, _tick_scenario tick_once timestamp self = Return self1.
Proof.
  intros Hsc. unfold _tick_scenario. rewrite Hsc.
  destruct (_ && _); simpl; eauto.
Qed.

Lemma tick_scenario_in_order timestamp self self1 :
  ticks_in_order self →
  _tick_scenario tick_once timestamp self = Return self1 →
  ticks_in_order self1.
Proof.
  intros [Hlater Hlast]. unfold _tick_scenario.
  destruct (_timestamp_last_run self <? carla.elapsed_seconds timestamp)%float eqn:Hlt;
    simpl.
  - destruct (_running self); simpl.
    + destruct (scenario self) as [sc|]; simpl; [|done].
      intros H. injection H as <-.
      assert (Hnew : later_each_time (ticked (trace self) ++ [timestamp])).
      { apply later_each_time_snoc; [done|]. intros a Ha. by rewrite <- (Hlast a Ha). }
      destruct (_agent self) eqn:Hagent; simpl; rewrite ?Hagent; simpl;
        unfold ticks_in_order; simpl; rewrite ?ticked_app; simpl;
        rewrite ?app_nil_r; (split; [done|]);
        intros a; rewrite last_snoc; by intros [= <-].
    + intros H. injection H as <-.
      destruct (_agent self); simpl; [|done].
      unfold ticks_in_order. simpl. rewrite ticked_app. simpl. by rewrite app_nil_r.
  - intros H. injection H as <-.
    destruct (_agent self); simpl; [|done].
    unfold ticks_in_order. simpl. rewrite ticked_app. simpl. by rewrite app_nil_r.
Qed.

Lemma loop_body_keeps poll self self1 :
  loop_body location_distance tick_once poll self = Return self1 →
  scenario self1 = scenario self ∧ _agent self1 = _agent self ∧
  (ticks_in_order self → ticks_in_order self1).
Proof.
  destruct poll as [[world timestamp]|]; simpl.
  - destruct (_tick_scenario tick_once timestamp self) as [self0| |] eqn:Htick;
      simpl; try done.
    destruct (extract_frame _ _ _ _) as [[se' q]| |]; simpl; try done.
    intros H. injection H as <-. simpl.
    destruct (tick_scenario_keeps _ _ _ Htick) as (? & ? & _).
    split; [done|]. split; [done|]. intros Hin.
    destruct (tick_scenario_in_order _ _ _ Hin Htick) as [Hlater Hlast].
    unfold ticks_in_order. simpl. rewrite ticked_app. simpl. by rewrite app_nil_r.
  - intros H. by injection H as <-.
Qed.

Lemma while_running_keeps polls : ∀ self self',
  while_running location_distance tick_once polls self = Return self' →
  scenario self' = scenario self ∧ _agent self' = _agent self ∧
  (ticks_in_order self → ticks_in_order self').
Proof.
  induction polls as [|poll polls IH]; intros self self'; simpl.
  - destruct (_running self); intros H; by injection H as <-.
  - destruct (_running self); [|intros H; by injection H as <-].
    destruct (loop_body _ _ poll self) as [self1| |] eqn:Hbody; simpl; try done.
    intros Hrest. apply IH in Hrest as (-> & -> & Hin').
    destruct (loop_body_keeps _ _ _ Hbody) as (-> & -> & Hin). auto.
Qed.

(** X13.  In a run of the loop that starts without ticks in its trace,
    every tick of the tree is at a strictly later simulated time than the
    tick before it: no frame time is ticked twice, and none out of order. *)
Theorem while_running_ticks_in_order polls self self' :
  ticked (trace self) = [] →
  while_running location_distance tick_once polls self = Return self' →
  later_each_time (ticked (trace self')).
Proof.
  intros Hnone Hrun.
  destruct (while_running_keeps _ _ _ Hrun) as (_ & _ & Hin).
  apply Hin. unfold ticks_in_order. by rewrite Hnone.
Qed.

(** X14.  The run ends with the tick in which the tree leaves [RUNNING]:
    the polls that follow are not looked at, the loop flag is cleared, and
    the frame of that last tick is still extracted. *)
Theorem while_running_last_tick world timestamp rest self sc :
  _running self = true →
  scenario self = Some sc →
  (_timestamp_last_run self <? carla.elapsed_seconds timestamp)%float = true →
  status (tick_once (scenario_tree sc) timestamp (statuses self)) (scenario_tree sc)
  ≠ RUNNING →
  while_running location_distance tick_once (Some (world, timestamp) :: rest) self
  = loop_body location_distance tick_once (Some (world, timestamp)) self ∧
  ∀ self', loop_body location_distance tick_once (Some (world, timestamp)) self
           = Return self' →
    _running self' = false ∧
    tick_count (trace self') = S (tick_count (trace self)) ∧
    last (trace self') = Some (ExtractFrame (carla.frame timestamp)).
Proof.
  intros Hrun Hsc Hlt Hstatus.
  assert (Hbody : ∀ self', loop_body location_distance tick_once
                             (Some (world, timestamp)) self = Return self' →
            _running self' = false ∧
            tick_count (trace self') = S (tick_count (trace self)) ∧
            last (trace self') = Some (ExtractFrame (carla.frame timestamp))).
  { intros self'. simpl. unfold _tick_scenario. rewrite Hlt, Hrun, Hsc. simpl.
    destruct (_agent self) eqn:Hagent; simpl; rewrite ?Hagent; simpl;
      (destruct (decide _) as [Heq|_]; [by destruct Hstatus|]); simpl;
      destruct (extract_frame _ _ _ _) as [[se' q]| |]; simpl; try done;
      intros H; injection H as <-; simpl; rewrite last_snoc, !tick_count_app;
      simpl; (split; [done|]); (split; [lia|done]). }
  split; [|done]. cbn [while_running]. rewrite Hrun.
  destruct (loop_body _ _ _ self) as [self'| |] eqn:Hself'; simpl; try done.
  destruct (Hbody self' eq_refl) as (Hstop & _).
  destruct rest; simpl; by rewrite Hstop.
Qed.

(** X15.  A frame whose record cannot be built stops the whole run: the
    exception of [frame_record] leaves [run_scenario], and [cleanup] is not
    reached. *)
Theorem run_scenario_extraction_failure world timestamp rest self sc e :
  scenario self = Some sc →
  frame_record location_distance world (se self) = Raise e →
  run_scenario location_distance tick_once (Some (world, timestamp) :: rest) self
  = Raise e.
Proof.
  intros Hsc Hrecord. unfold run_scenario. cbn [while_running set_running _running].
  cbn [loop_body].
  destruct (tick_scenario_returns timestamp (set_running true self) sc Hsc)
    as (self1 & Htick).
  rewrite Htick. cbn [obind].
  destruct (tick_scenario_keeps _ _ _ Htick) as (_ & _ & Hse).
  unfold extract_frame. rewrite Hse. cbn [se set_running]. by rewrite Hrecord.
Qed.

End loop.

Lemma while_running_ticks_in_order_witness :
  ∃ self',
    while_running (libm := correctly_rounded) euclidean (ends_at 0.1)
      [Some (two_vehicle_world, frame_one); Some (two_vehicle_world, frame_one);
       Some (two_vehicle_world, frame_two)] (set_running true loaded)
    = Return self' ∧
    ticked (trace self') = [frame_one; frame_two] ∧
    later_each_time (ticked (trace self')).
Proof.
  eexists. split; [vm_compute; reflexivity|]. split; [reflexivity|].
  apply (while_running_ticks_in_order (libm := correctly_rounded) euclidean (ends_at 0.1)
           [Some (two_vehicle_world, frame_one); Some (two_vehicle_world, frame_one);
            Some (two_vehicle_world, frame_two)] (set_running true loaded)).
  - reflexivity.
  - vm_compute. reflexivity.
Defined.

Lemma while_running_last_tick_witness :
  while_running (libm := correctly_rounded) euclidean (ends_at 0.1)
    [Some (two_vehicle_world, frame_two); Some (two_vehicle_world, frame_one)]
    (set_running true loaded)
  = loop_body (libm := correctly_rounded) euclidean (ends_at 0.1) (Some (two_vehicle_world, frame_two))
      (set_running true loaded).
Proof.
  apply (while_running_last_tick (libm := correctly_rounded) euclidean (ends_at 0.1) two_vehicle_world frame_two
           [Some (two_vehicle_world, frame_one)] (set_running true loaded)
           (failing_then_acceptable false)).
  - reflexivity.
  - reflexivity.
  - reflexivity.
  - by vm_compute.
Defined.

Lemma run_scenario_extraction_failure_witness :
  run_scenario (libm := correctly_rounded) euclidean (ends_at 0.1) [Some (no_lane_world, frame_one)] loaded
  = Raise AttributeError.
Proof.
  apply (run_scenario_extraction_failure (libm := correctly_rounded) euclidean (ends_at 0.1) no_lane_world frame_one
           [] loaded (failing_then_acceptable false)); reflexivity.
Defined.

(** ** The end of a run *)

Lemma Scenario_init_frontier behavior criteria name timeout tof alloc sc :
  Scenario_init behavior criteria name timeout tof alloc = Return sc →
  has_children (scenario_tree sc) = true ∧
  ¬ lone_Parallel (leaves (scenario_tree sc)).
Proof.
  intros Hinit.
  destruct (Scenario_init_tree _ _ _ _ _ _ _ Hinit) as (Htn & Hroot & Hin).
  split; [done|]. intros (n & Hn & Hp).
  assert (Hleaf : timeout_node sc ∈ leaves (scenario_tree sc)).
  { rewrite (leaves_parent _ Hroot). apply list_elem_of_bind.
    exists (timeout_node sc). split; [|done]. rewrite Htn. simpl. left. }
  rewrite Hn in Hleaf. apply list_elem_of_singleton in Hleaf.
  rewrite <- Hleaf, Htn in Hp. done.
Qed.

(** What [terminate] does to the statuses of a tree with distinct
    identities. *)
Lemma terminate_statuses sc σ :
  NoDup (node_id <$> nodes (scenario_tree sc)) →
  ∃ σ', terminate sc σ = Return σ' ∧
    ∀ n, n ∈ nodes (scenario_tree sc) →
      (has_children n = true → status σ' n = status σ n) ∧
      (has_children n = false → ¬ lone_Parallel (leaves (scenario_tree sc)) →
       status σ' n = INVALID).
Proof.
  intros Hnd.
  destruct (extract_nodes_from_tree_spec _ Hnd) as (l & Hex & Hperm & Hall).
  unfold terminate. rewrite Hex. simpl. eexists. split; [done|].
  assert (Hsub : ∀ m, m ∈ drop_lone_Parallel l → m ∈ l).
  { destruct l as [|m0 [|]]; try done. simpl. destruct (is_Parallel m0); [|done].
    intros m Hm. by apply elem_of_nil in Hm. }
  intros n Hn. unfold status. rewrite foldl_node_terminate_lookup. split.
  - intros Hch. destruct (decide _) as [Hid|]; [|done].
    apply list_elem_of_fmap in Hid as (m & Hm & Hml). apply Hsub in Hml.
    rewrite Hperm in Hml. apply leaves_in_nodes in Hml as [Hmn Hmc].
    assert (n = m) by eauto using NoDup_fmap_inj. congruence.
  - intros Hch Hlone. rewrite decide_True; [done|].
    apply list_elem_of_fmap_2.
    assert (Hl : n ∈ l) by (rewrite Hperm; by apply leaves_in_nodes).
    destruct l as [|m0 [|]]; try done. simpl.
    destruct (is_Parallel m0) eqn:Hp; [|done]. destruct Hlone.
    exists m0. split; [|done]. symmetry. by apply Permutation_singleton_l.
Qed.

Section run.

Context {libm : Libm}.

Variable location_distance : carla.Vector3D → carla.Vector3D → float.
Variable tick_once : Node → carla.Timestamp → gmap nat Status → gmap nat Status.

(** X16.  When [run_scenario] returns, the loop flag is cleared, the agent
    is released, every leaf of the scenario tree is [INVALID], and the root
    still has the status the loop left it with, which is the one line 238
    reads; [cleanup] touches neither the extractor nor the trace. *)
Theorem run_scenario_end behavior criteria name timeout tof alloc sc polls self self' :
  Scenario_init behavior criteria name timeout tof alloc = Return sc →
  NoDup (node_id <$> nodes (scenario_tree sc)) →
  scenario self = Some sc →
  run_scenario location_distance tick_once polls self = Return self' →
  _running self' = false ∧ _agent self' = false ∧
  ∃ self1,
    while_running location_distance tick_once polls (set_running true self)
    = Return self1 ∧
    se self' = se self1 ∧ trace self' = trace self1 ∧
    status (statuses self') (scenario_tree sc)
    = status (statuses self1) (scenario_tree sc) ∧
    ∀ n, n ∈ nodes (scenario_tree sc) → has_children n = false →
         status (statuses self') n = INVALID.
Proof.
  intros Hinit Hnd Hsc. unfold run_scenario.
  destruct (while_running _ _ polls (set_running true self)) as [self1| |] eqn:Hloop;
    simpl; try done.
  destruct (_running self1) eqn:Hstop; [done|].
  destruct (while_running_keeps _ _ _ _ _ Hloop) as (Hsc1 & _ & _).
  unfold cleanup. rewrite Hsc1. cbn [scenario set_running]. rewrite Hsc.
  destruct (terminate_statuses sc (statuses self1) Hnd) as (σ' & -> & Hstatus).
  simpl. intros H. injection H as <-. simpl.
  destruct (Scenario_init_frontier _ _ _ _ _ _ _ Hinit) as (Hroot & Hlone).
  split; [done|]. split; [done|]. exists self1. do 3 (split; [done|]). split.
  - apply Hstatus; [|done]. rewrite nodes_unfold. left.
  - intros n Hn Hch. by apply Hstatus.
Qed.

End run.

Lemma run_scenario_end_witness :
  ∃ self',
    run_scenario (libm := correctly_rounded) euclidean (ends_at 0.1)
      [Some (two_vehicle_world, frame_one); Some (two_vehicle_world, frame_two)] loaded
    = Return self' ∧
    _running self' = false ∧
    status (statuses self') (scenario_tree (failing_then_acceptable false)) = SUCCESS ∧
    status (statuses self') failing = INVALID.
Proof.
  eexists. split; [vm_compute; reflexivity|].
  edestruct (run_scenario_end (libm := correctly_rounded) euclidean (ends_at 0.1) None
               (Some (CriteriaList [failing; acceptable])) "scenario" 60 false 2
               (failing_then_acceptable false)
               [Some (two_vehicle_world, frame_one); Some (two_vehicle_world, frame_two)]
               loaded)
    as (Hstop & _ & self1 & Hloop & _ & _ & Hroot & Hleaves).
  - vm_compute; reflexivity.
  - exact failing_then_acceptable_NoDup.
  - reflexivity.
  - vm_compute; reflexivity.
  - split; [exact Hstop|]. split; [vm_compute; reflexivity|].
    apply Hleaves; [|reflexivity]. apply list_elem_of_In. simpl. tauto.
Defined.

(** ** [get_actor_display_name] *)

Lemma split_nonempty sep s : split sep s ≠ [].
Proof.
  destruct s as [|c s]; simpl; [done|].
  destruct (Ascii.eqb c sep); [done|]. by destruct (split sep s).
Qed.

Lemma join_split sep s : join " " (split sep s) = replace_char sep " " s.
Proof.
  induction s as [|c s IH]; [done|]. simpl.
  pose proof (split_nonempty sep s) as Hne.
  destruct (Ascii.eqb c sep).
  - destruct (split sep s) as [|w ws] eqn:Hs; [done|]. by rewrite <- IH.
  - destruct (split sep s) as [|w ws] eqn:Hs; [done|]. rewrite <- IH.
    by destruct ws.
Qed.

Lemma join_tail_split sep s :
  join " " (drop 1 (split sep s)) = replace_char sep " " (after_first sep s).
Proof.
  induction s as [|c s IH]; [done|]. simpl.
  destruct (Ascii.eqb c sep).
  - simpl. rewrite drop_0. apply join_split.
  - pose proof (split_nonempty sep s) as Hne.
    destruct (split sep s) as [|w ws] eqn:Hs; [done|]. by rewrite <- IH.
Qed.

Lemma length_replace_char old new s :
  String.length (replace_char old new s) = String.length s.
Proof. induction s; simpl; by rewrite ?IHs. Qed.

Lemma length_title b s : String.length (title b s) = String.length s.
Proof.
  revert b. induction s as [|c s IH]; intros b; simpl; [done|].
  destruct (is_lower c || is_upper c); simpl; by rewrite IH.
Qed.

Lemma length_after_first sep s :
  String.length (after_first sep s) ≤ String.length s.
Proof.
  induction s as [|c s IH]; simpl; [done|]. destruct (Ascii.eqb c sep); lia.
Qed.

(** X17.  The display name is the title-cased type id after its first
    separator, with the separators that follow turned into spaces; when it
    is longer than [truncate] it is cut to [name[:truncate - 1]], which for
    a [truncate] of at least one is its first [truncate - 1] characters,
    and an ellipsis is added.  It is never longer than the type id, so a
    type id of at most [truncate] characters is never cut. *)
Theorem get_actor_display_name_spaced type_id (truncate : Z) :
  get_actor_display_name type_id truncate
  = (if (truncate <? Z.of_nat (String.length (spaced_name type_id)))%Z
     then (slice_to (truncate - 1) (spaced_name type_id) ++ ellipsis)%string
     else spaced_name type_id) ∧
  ((0 < truncate)%Z →
   slice_to (truncate - 1) (spaced_name type_id)
   = String.substring 0 (Z.to_nat truncate - 1) (spaced_name type_id)) ∧
  String.length (spaced_name type_id) ≤ String.length type_id ∧
  ((Z.of_nat (String.length type_id) ≤ truncate)%Z →
   get_actor_display_name type_id truncate = spaced_name type_id).
Proof.
  assert (Hname : get_actor_display_name type_id truncate
                  = if (truncate <? Z.of_nat (String.length (spaced_name type_id)))%Z
                    then (slice_to (truncate - 1) (spaced_name type_id)
                          ++ ellipsis)%string
                    else spaced_name type_id).
  { unfold get_actor_display_name, spaced_name. by rewrite join_tail_split. }
  assert (Hlen : String.length (spaced_name type_id) ≤ String.length type_id).
  { unfold spaced_name. rewrite length_replace_char.
    etransitivity; [apply length_after_first|].
    by rewrite length_title, length_replace_char. }
  split; [done|]. split; [|split; [done|]].
  - intros Hpos. unfold slice_to.
    destruct (Z.ltb_spec (truncate - 1) 0) as [?|_]; [lia|]. f_equal. lia.
  - intros Hshort. rewrite Hname.
    destruct (Z.ltb_spec truncate (Z.of_nat (String.length (spaced_name type_id))));
      [lia|done].
Qed.

Lemma get_actor_display_name_spaced_witness :
  get_actor_display_name "vehicle.audi.a2" 250 = "Audi A2"%string ∧
  get_actor_display_name "walker.pedestrian.0001" 5 = String.append "Pede" ellipsis ∧
  get_actor_display_name "vehicle.audi.a2" 0 = String.append "Audi A" ellipsis.
Proof.
  split; [|split].
  - destruct (get_actor_display_name_spaced "vehicle.audi.a2" 250)
      as (_ & _ & _ & Hname).
    rewrite Hname; [reflexivity|simpl; lia].
  - destruct (get_actor_display_name_spaced "walker.pedestrian.0001" 5)
      as (Hname & _).
    rewrite Hname. reflexivity.
  - destruct (get_actor_display_name_spaced "vehicle.audi.a2" 0) as (Hname & _).
    rewrite Hname. reflexivity.
Defined.

Lemma occurs_app c s1 s2 : occurs c (s1 ++ s2) = occurs c s1 || occurs c s2.
Proof. induction s1 as [|d s1 IH]; simpl; [done|]. by rewrite IH, orb_assoc. Qed.

Lemma occurs_substring c s : ∀ m,
  occurs c s = false → occurs c (String.substring 0 m s) = false.
Proof.
  induction s as [|d s IH]; intros [|m]; simpl; try done.
  intros [-> Hs]%orb_false_iff. simpl. by apply IH.
Qed.

Lemma occurs_after_first c sep s :
  occurs c s = false → occurs c (after_first sep s) = false.
Proof.
  induction s as [|d s IH]; simpl; [done|].
  intros [_ Hs]%orb_false_iff. destruct (Ascii.eqb d sep); auto.
Qed.

Lemma occurs_replace_char_old old new s :
  Ascii.eqb new old = false → occurs old (replace_char old new s) = false.
Proof.
  intros Hne. induction s as [|d s IH]; simpl; [done|]. rewrite IH, orb_false_r.
  destruct (Ascii.eqb_spec d old) as [->|Hd]; [done|]. by apply Ascii.eqb_neq.
Qed.

Lemma occurs_replace_char_other c old new s :
  Ascii.eqb new c = false → occurs c s = false →
  occurs c (replace_char old new s) = false.
Proof.
  intros Hne. induction s as [|d s IH]; simpl; [done|].
  intros [Hd Hs]%orb_false_iff. rewrite IH, orb_false_r by done.
  by destruct (Ascii.eqb d old).
Qed.

(** Title-casing turns letters into letters, so it makes no underscore. *)
Lemma title_char_underscore (b : bool) (d : ascii) :
  Ascii.eqb
    (if is_lower d || is_upper d then (if b then to_lower d else to_upper d) else d) "_"
  = Ascii.eqb d "_".
Proof. by destruct b, d as [[] [] [] [] [] [] [] []]. Qed.

Lemma occurs_title_underscore s : ∀ b, occurs "_" (title b s) = occurs "_" s.
Proof.
  induction s as [|d s IH]; intros b; simpl; [done|].
  pose proof (title_char_underscore b d) as Hd.
  destruct (is_lower d || is_upper d); simpl; rewrite IH; [by rewrite Hd|done].
Qed.

Lemma spaced_name_separators type_id :
  occurs "." (spaced_name type_id) = false ∧ occurs "_" (spaced_name type_id) = false.
Proof.
  unfold spaced_name. split.
  - by apply occurs_replace_char_old.
  - apply occurs_replace_char_other; [done|]. apply occurs_after_first.
    rewrite occurs_title_underscore. by apply occurs_replace_char_old.
Qed.

(** X18.  A display name holds neither a dot nor an underscore, whatever
    the type id and the length it is cut to. *)
Theorem get_actor_display_name_separators type_id truncate :
  occurs "." (get_actor_display_name type_id truncate) = false ∧
  occurs "_" (get_actor_display_name type_id truncate) = false.
Proof.
  destruct (spaced_name_separators type_id) as [Hdot Hunder].
  unfold get_actor_display_name. rewrite join_tail_split.
  fold (spaced_name type_id).
  destruct (truncate <? _)%Z.
  - unfold slice_to. rewrite !occurs_app, !occurs_substring by done. by split.
  - by split.
Qed.

(** ** The speed of [get_actor_attributes] *)

(** A rounded result carries the sign it is given. *)
Lemma binary_round_aux_sign prec emax s m e l :
  match binary_round_aux prec emax s m e l with
  | S754_finite s' _ _ => s' = s
  | _ => True
  end.
Proof.
  unfold binary_round_aux.
  destruct (shr_fexp prec emax m e l) as [mrs' e'].
  destruct (shr_fexp prec emax _ e' loc_Exact) as [mrs'' e''].
  destruct (shr_m mrs''); [done| |done]. by destruct (_ <=? _)%Z.
Qed.

(** A square root is never a negative number. *)
Lemma sqrt_sign a :
  match Prim2SF (PrimFloat.sqrt a) with
  | S754_finite s _ _ => s = false
  | _ => True
  end.
Proof.
  rewrite sqrt_spec. unfold SF64sqrt, SFsqrt.
  destruct (Prim2SF a) as [s|[]| |[] m e]; try done.
  destruct (SFsqrt_core_binary _ _ _ _) as [[mz ez] lz].
  apply binary_round_aux_sign.
Qed.

(** Neither is its product with the constant of line 405. *)
Lemma speed_kmh_sign xx yy zz :
  match Prim2SF (speed_kmh xx yy zz) with
  | S754_finite s _ _ => s = false
  | _ => True
  end.
Proof.
  unfold speed_kmh. rewrite mul_spec.
  pose proof (sqrt_sign (xx + yy + zz)) as Hsqrt.
  destruct (Prim2SF (PrimFloat.sqrt _)) as [s|s| |s m e]; try done.
  subst s. destruct (Prim2SF 3.6) as [s|s| |s m' e'] eqn:Hfactor;
    try (by vm_compute in Hfactor).
  vm_compute in Hfactor. injection Hfactor as <- _ _.
  unfold SF64mul, SFmul. apply binary_round_aux_sign.
Qed.

(** X19.  The speed that [get_actor_attributes] returns is never negative,
    whatever the signs of the velocity's components and whatever the C
    library gives for their squares. *)
Theorem get_actor_attributes_speed {libm : Libm} type_id actor a :
  get_actor_attributes type_id actor = Return a → (0 ≤ velocity_abs a)%Z.
Proof.
  intros Hret.
  destruct (get_actor_attributes_cases type_id actor)
    as [(xx & yy & zz & _ & _ & Heq)|[_ [e Heq]]]; rewrite Heq in Hret; [|done].
  injection Hret as <-. cbn [truncated_attributes velocity_abs].
  unfold truncate_toward_zero.
  pose proof (float_den_pos (speed_kmh xx yy zz)) as Hden.
  pose proof (speed_kmh_sign xx yy zz) as Hsign.
  apply Z.quot_pos; [|lia]. unfold float_num.
  destruct (Prim2SF (speed_kmh _ _ _)) as [s|s| |s m e]; try done. subst s. lia.
Qed.

Lemma get_actor_attributes_speed_witness :
  ∃ a, get_actor_attributes (libm := correctly_rounded) "vehicle.tesla.model3"
         example_actor = Return a ∧
       (0 ≤ velocity_abs a)%Z.
Proof.
  eexists. split; [vm_compute; reflexivity|].
  apply (get_actor_attributes_speed (libm := correctly_rounded)
           "vehicle.tesla.model3" example_actor).
  vm_compute; reflexivity.
Defined.
